(** * A voice-assistant relay server (server.py), embedded and verified

    The development follows the layout of [server.py]:

    - byte strings, [int.to_bytes], substring search and [bytes.split];
    - [create_wav_header];
    - the client socket, the two collaborators and the trace of their calls;
    - [generate_and_stream_elevenlabs_audio], [process_conversation], the
      receive loop and the accept loop of [main].

    Python values are modelled as follows: [bytes] is [list byte], [int] is
    [Z], [str] is a list of code points, a raised exception is the [Raise]
    outcome of a computation.

    What lies outside the program is a parameter of the model: the outcomes
    of the [recv] calls of a connection, how many writes its socket takes,
    and what the two collaborators answer (record [peer]).  What the
    program does to the outside is recorded as a trace of [event]s.

    Of the [print] calls only the two that print the response text are
    modelled, with their one effect on control: [print] raises
    [UnicodeEncodeError] for a text that standard output cannot encode.
    The other [print] calls write fixed ASCII text and numbers; they, and
    the values computed only for them ([duration], [total_bytes_sent],
    [audio_buffer.tell()]), are left out, as are the messages that
    exceptions carry.  The set-up of the listening socket is left out too,
    and [s.accept()] is taken to succeed for every client that connects. *)

From Stdlib Require Import List ZArith Lia Bool Arith String.
From Stdlib Require Import Strings.Byte.
Import ListNotations.

Local Open Scope Z_scope.
Local Open Scope list_scope.

(** ** Byte strings *)

Definition bytes := list byte.

(** The bytes of an ASCII literal such as [b'RIFF']. *)
Definition b_lit (s : string) : bytes := list_byte_of_string s.

Definition byte_to_Z (b : byte) : Z := Z.of_N (Byte.to_N b).

(** The byte whose value is [z mod 256]. *)
Definition byte_of_Z (z : Z) : byte :=
  match Byte.of_N (Z.to_N (z mod 256)) with
  | Some b => b
  | None => x00
  end.

(** ** Exceptions and outcomes *)

(** The exception classes the program can meet.  [OSError] is what
    [socket.error] names; all of them are subclasses of [Exception]. *)
Inductive exn : Type :=
| OSError
| OverflowError
| UnicodeEncodeError
| ApiError.

Inductive result (A : Type) : Type :=
| Ok (a : A)
| Raise (e : exn).

Arguments Ok {A} a.
Arguments Raise {A} e.

Definition rbind {A B : Type} (r : result A) (k : A -> result B) : result B :=
  match r with
  | Ok a => k a
  | Raise e => Raise e
  end.

(** ** [int.to_bytes(length, 'little')] *)

(** The [n] low-order base-256 digits of [v], least significant first. *)
Fixpoint le_digits (n : nat) (v : Z) : bytes :=
  match n with
  | O => []
  | S k => byte_of_Z (v mod 256) :: le_digits k (v / 256)
  end.

(** [v.to_bytes(n, 'little')]: Python raises [OverflowError] for a negative
    [v] (the default is unsigned) and for a [v] that needs more than [n]
    bytes. *)
Definition to_bytes (v : Z) (n : nat) : result bytes :=
  if (0 <=? v) && (v <? 256 ^ Z.of_nat n)
  then Ok (le_digits n v)
  else Raise OverflowError.

(** Reading a little-endian field back: [int.from_bytes(bs, 'little')]. *)
Fixpoint from_le (bs : bytes) : Z :=
  match bs with
  | [] => 0
  | b :: rest => byte_to_Z b + 256 * from_le rest
  end.

(** [bs[off : off + len]] *)
Definition slice (off len : nat) (bs : bytes) : bytes :=
  firstn len (skipn off bs).

(** ** Configuration constants *)

Definition SAMPLE_RATE : Z := 16000.
Definition CHANNELS : Z := 1.
Definition SAMPLE_WIDTH : Z := 2.
Definition CHUNK_SIZE : nat := 1024.
Definition END_RECORDING_SIGNAL : bytes := b_lit "END_RECORDING_SIGNAL".

(** ** [create_wav_header] *)

(** [len(audio_data)] as a Python integer. *)
Definition len (bs : bytes) : Z := Z.of_nat (List.length bs).

(** The successive [header.write] calls on the [io.BytesIO] object append to
    it, so the value of [header.getvalue()] is the concatenation of the
    pieces written, in order; any [to_bytes] that raises aborts the call. *)
Definition wav_header (datasize sample_rate num_channels sample_width : Z)
  : result bytes :=
  rbind (to_bytes (datasize + 36) 4) (fun riff_size =>
  rbind (to_bytes 16 4) (fun fmt_size =>
  rbind (to_bytes 1 2) (fun fmt_tag =>
  rbind (to_bytes num_channels 2) (fun channels =>
  rbind (to_bytes sample_rate 4) (fun rate =>
  rbind (to_bytes (sample_rate * num_channels * sample_width) 4) (fun byte_rate =>
  rbind (to_bytes (num_channels * sample_width) 2) (fun block_align =>
  rbind (to_bytes (sample_width * 8) 2) (fun bits_per_sample =>
  rbind (to_bytes datasize 4) (fun data_size =>
  Ok (b_lit "RIFF" ++ riff_size ++ b_lit "WAVEfmt " ++ fmt_size ++ fmt_tag
        ++ channels ++ rate ++ byte_rate ++ block_align ++ bits_per_sample
        ++ b_lit "data" ++ data_size)))))))))).

Definition create_wav_header (audio_data : bytes)
  (sample_rate num_channels sample_width : Z) : result bytes :=
  let datasize := len audio_data in
  rbind (wav_header datasize sample_rate num_channels sample_width)
        (fun header => Ok (header ++ audio_data)).

(** ** Searching a byte string *)

Definition is_empty {A : Type} (l : list A) : bool :=
  match l with
  | [] => true
  | _ :: _ => false
  end.

(** [data.startswith(sep)] *)
Fixpoint starts_with (sep data : bytes) : bool :=
  match sep, data with
  | [], _ => true
  | _ :: _, [] => false
  | a :: sep', b :: data' => Byte.eqb a b && starts_with sep' data'
  end.

(** [sep in data]: [sep] occurs in [data] as a contiguous run of bytes. *)
Fixpoint bytes_in (sep data : bytes) : bool :=
  starts_with sep data ||
  match data with
  | [] => false
  | _ :: rest => bytes_in sep rest
  end.

(** [data.split(sep)] scans left to right for occurrences of [sep] that do
    not overlap.  [piece] holds the bytes collected since the last
    separator and [skip] counts the bytes of a separator just matched that
    are still to be passed over. *)
Fixpoint split_from (sep : bytes) (skip : nat) (piece data : bytes)
  : list bytes :=
  match data with
  | [] => [piece]
  | b :: rest =>
      match skip with
      | S k => split_from sep k piece rest
      | O =>
          if starts_with sep data
          then piece :: split_from sep (List.length sep - 1) [] rest
          else split_from sep 0 (piece ++ [b]) rest
      end
  end.

(** [data.split(sep)] for a non-empty [sep] (Python raises [ValueError] for
    an empty one; the only separator the program uses is the twenty-byte
    [END_RECORDING_SIGNAL]). *)
Definition bytes_split (sep data : bytes) : list bytes :=
  split_from sep 0 [] data.

(** ** Text *)

(** A Python [str] is a sequence of Unicode code points. *)
Definition text := list N.

Definition str_lit (s : string) : text :=
  map Ascii.N_of_ascii (list_ascii_of_string s).

(** [c.isspace()] for a single code point: the white-space table of
    CPython. *)
Definition isspace (c : N) : bool :=
  (((9 <=? c) && (c <=? 13)) || ((28 <=? c) && (c <=? 32))
   || (c =? 133) || (c =? 160) || (c =? 5760)
   || ((8192 <=? c) && (c <=? 8202))
   || (c =? 8232) || (c =? 8233) || (c =? 8239) || (c =? 8287)
   || (c =? 12288))%N.

Fixpoint lstrip (t : text) : text :=
  match t with
  | [] => []
  | c :: rest => if isspace c then lstrip rest else t
  end.

(** [t.strip()] *)
Definition strip (t : text) : text := rev (lstrip (rev (lstrip t))).

(** A code point that standard output can encode.  The program prints
    U+1F6A8 when it starts, so it only runs with a Unicode encoding on
    standard output; with UTF-8 and the strict error handler, the
    defaults, every code point is encoded but the surrogates
    U+D800..U+DFFF. *)
Definition encodable (c : N) : bool :=
  negb ((55296 <=? c) && (c <=? 57343))%N.

(** A text that [print] writes without raising. *)
Definition printable (t : text) : bool := forallb encodable t.

(** ** The outside world of one connection *)

(** What one call of [conn.recv(CHUNK_SIZE)] gives: the bytes read ([b'']
    when the peer has closed its side), or a [socket.error]. *)
Inductive recv_result : Type :=
| RecvData (data : bytes)
| RecvError.

(** The iterator returned by the synthesis collaborator: a finite run of
    chunks that ends normally or by raising. *)
Inductive audio_stream : Type :=
| StreamEnd
| StreamFail
| StreamChunk (chunk : bytes) (rest : audio_stream).

(** The stream that yields [chunks] and then continues as [tail]. *)
Fixpoint stream_of (chunks : list bytes) (tail : audio_stream) : audio_stream :=
  match chunks with
  | [] => tail
  | c :: cs => StreamChunk c (stream_of cs tail)
  end.

(** Everything outside the program that one session depends on:

    - [recv_script]: the outcomes of the successive [conn.recv] calls; once
      the script is used up the peer has closed and [recv] gives [b''];
    - [send_limit]: [Some k] when the socket accepts [k] calls of
      [conn.sendall] and raises on every later one, [None] when writes
      never fail;
    - [gemini]: the outcome of [generate_content(...)] followed by
      [.text], for the container submitted;
    - [elevenlabs]: the outcome of [text_to_speech.convert] for the text
      submitted. *)
Record peer : Type := {
  recv_script : list recv_result;
  send_limit : option nat;
  gemini : bytes -> result text;
  elevenlabs : text -> result audio_stream
}.

(** The calls the program makes on the collaborators and on the sockets, in
    the order made. *)
Inductive event : Type :=
| Accept
| Transcribe (wav : bytes)
| Synthesize (t : text)
| SendAll (chunk : bytes)
| SendFailed (chunk : bytes)
| Close.

(** The bytes that completed [sendall] calls have put on the socket. *)
Fixpoint bytes_sent (tr : list event) : bytes :=
  match tr with
  | [] => []
  | SendAll chunk :: rest => chunk ++ bytes_sent rest
  | _ :: rest => bytes_sent rest
  end.

Definition is_collaborator_call (e : event) : bool :=
  match e with
  | Transcribe _ | Synthesize _ => true
  | _ => false
  end.

Definition is_write (e : event) : bool :=
  match e with
  | SendAll _ | SendFailed _ => true
  | _ => false
  end.

(** ** Computations over a connection *)

(** The state a session threads through its calls: how many [sendall]
    calls have completed and the trace so far. *)
Record conn_state : Type := {
  sends : nat;
  trace : list event
}.

Definition fresh : conn_state := {| sends := 0; trace := [] |}.

Definition M (A : Type) : Type := conn_state -> result A * conn_state.

Definition ret {A : Type} (a : A) : M A := fun st => (Ok a, st).

Definition raise {A : Type} (e : exn) : M A := fun st => (Raise e, st).

Definition bind {A B : Type} (m : M A) (k : A -> M B) : M B :=
  fun st =>
    match m st with
    | (Ok a, st') => k a st'
    | (Raise e, st') => (Raise e, st')
    end.

(** [try: m  except Exception as e: handler e] *)
Definition try_except {A : Type} (m : M A) (handler : exn -> M A) : M A :=
  fun st =>
    match m st with
    | (Ok a, st') => (Ok a, st')
    | (Raise e, st') => handler e st'
    end.

Definition lift {A : Type} (r : result A) : M A := fun st => (r, st).

Definition emit (e : event) : M unit :=
  fun st => (Ok tt, {| sends := sends st; trace := trace st ++ [e] |}).

(** [print(...)] of a line that contains the text [t]: it raises when the
    text cannot be encoded, and otherwise leaves no mark on the
    connection. *)
Definition print_text (t : text) : M unit :=
  if printable t then ret tt else raise UnicodeEncodeError.

Declare Scope conn_scope.
Delimit Scope conn_scope with conn.
Notation "x <- m ;; k" := (bind m (fun x => k))
  (at level 61, m at next level, right associativity) : conn_scope.
Notation "m ;; k" := (bind m (fun _ => k))
  (at level 61, right associativity) : conn_scope.
Local Open Scope conn_scope.

Section Session.

Variable p : peer.

(** [conn.sendall(chunk)] *)
Definition conn_sendall (chunk : bytes) : M unit :=
  fun st =>
    match send_limit p with
    | Some k =>
        if (k <=? sends st)%nat
        then (Raise OSError,
              {| sends := sends st; trace := trace st ++ [SendFailed chunk] |})
        else (Ok tt,
              {| sends := S (sends st); trace := trace st ++ [SendAll chunk] |})
    | None =>
        (Ok tt, {| sends := S (sends st); trace := trace st ++ [SendAll chunk] |})
    end.

(** [genai.GenerativeModel(GEMINI_MODEL_NAME).generate_content(prompt_parts)]
    and the read of [response.text]; the instruction text of the prompt
    is a constant. *)
Definition generate_content (wav_data : bytes) : M text :=
  emit (Transcribe wav_data) ;; lift (gemini p wav_data).

(** [elevenlabs_client.text_to_speech.convert(...)] *)
Definition convert (t : text) : M audio_stream :=
  emit (Synthesize t) ;; lift (elevenlabs p t).

(** The loop [for chunk in audio_stream: if chunk: conn.sendall(chunk)].
    The counter [total_bytes_sent] only feeds a log line. *)
Fixpoint relay (audio : audio_stream) : M unit :=
  match audio with
  | StreamEnd => ret tt
  | StreamFail => raise ApiError
  | StreamChunk chunk rest =>
      (if is_empty chunk then ret tt else conn_sendall chunk) ;;
      relay rest
  end.

(** The [print] of the line that announces the text stands before the
    [try] block: when it raises, the exception leaves the function. *)
Definition generate_and_stream_elevenlabs_audio (t : text) : M unit :=
  if is_empty (strip t) then ret tt
  else
    print_text t ;;
    try_except
      (audio <- convert t ;; relay audio)
      (fun _ => ret tt).

(** [print(gemini_response_text)] stands inside the [try] block, between
    the read of [response.text] and the call of
    [generate_and_stream_elevenlabs_audio]. *)
Definition process_conversation (audio_bytes : bytes) : M unit :=
  if is_empty audio_bytes then ret tt
  else
    try_except
      (wav_data <- lift (create_wav_header audio_bytes
                           SAMPLE_RATE CHANNELS SAMPLE_WIDTH) ;;
       gemini_response_text <- generate_content wav_data ;;
       print_text gemini_response_text ;;
       generate_and_stream_elevenlabs_audio gemini_response_text)
      (fun _ => ret tt).

End Session.

(** ** The receive loop of [main] *)

(** Which [break] left the receive loop. *)
Inductive termination : Type :=
| ByMarker
| ByDisconnect
| BySocketError.

(** One turn of the loop body, on the outcome of its [conn.recv] call: the
    new value of [audio_buffer], and the [break] taken if the turn leaves
    the loop.  A [socket.error] is caught by the [except] clause. *)
Definition receive_step (audio_buffer : bytes) (r : recv_result)
  : bytes * option termination :=
  match r with
  | RecvError => (audio_buffer, Some BySocketError)
  | RecvData data =>
      if is_empty data then (audio_buffer, Some ByDisconnect)
      else if bytes_in END_RECORDING_SIGNAL data then
        let audio_part_before_signal :=
          hd [] (bytes_split END_RECORDING_SIGNAL data) in
        (audio_buffer ++ audio_part_before_signal, Some ByMarker)
      else (audio_buffer ++ data, None)
  end.

(** The loop [while True: try: data = conn.recv(CHUNK_SIZE) ...], run on the
    outcomes of the [recv] calls still to come.  It gives the value of
    [audio_buffer], the [break] taken, and the outcomes not consumed. *)
Fixpoint receive_loop (audio_buffer : bytes) (script : list recv_result)
  : bytes * termination * list recv_result :=
  match script with
  | [] => (audio_buffer, ByDisconnect, [])
  | r :: rest =>
      match receive_step audio_buffer r with
      | (buffer, Some stop) => (buffer, stop, rest)
      | (buffer, None) => receive_loop buffer rest
      end
  end.

Definition received_audio (p : peer) : bytes :=
  fst (fst (receive_loop [] (recv_script p))).

(** The body of [with conn: ...]: receive, process, and close the
    connection whether or not the body raised. *)
Definition serve_connection (p : peer) : result unit * list event :=
  let '(r, st) := process_conversation p (received_audio p) fresh in
  (r, trace st ++ [Close]).


(** ** Reading a header back *)

(** The fields of a header, read at their fixed offsets. *)
Record wav_fields : Type := {
  riff_tag : bytes;
  riff_size : Z;
  wave_fmt_tag : bytes;
  fmt_size : Z;
  format_tag : Z;
  channel_count : Z;
  rate : Z;
  byte_rate : Z;
  block_align : Z;
  bits_per_sample : Z;
  data_tag : bytes;
  data_size : Z
}.

Definition parse_header (h : bytes) : wav_fields := {|
  riff_tag := slice 0 4 h;
  riff_size := from_le (slice 4 4 h);
  wave_fmt_tag := slice 8 8 h;
  fmt_size := from_le (slice 16 4 h);
  format_tag := from_le (slice 20 2 h);
  channel_count := from_le (slice 22 2 h);
  rate := from_le (slice 24 4 h);
  byte_rate := from_le (slice 28 4 h);
  block_align := from_le (slice 32 2 h);
  bits_per_sample := from_le (slice 34 2 h);
  data_tag := slice 36 4 h;
  data_size := from_le (slice 40 4 h)
|}.

(** The format tag of uncompressed PCM. *)
Definition WAVE_FORMAT_PCM : Z := 1.

(** ** Vocabulary of the statements *)

(** A chunk of plain audio: some bytes, the marker not among them. *)
Definition audio_chunk (data : bytes) : Prop :=
  is_empty data = false /\ bytes_in END_RECORDING_SIGNAL data = false.

(** How a recording can end once its audio chunks are in: the script is
    used up or [recv] gives [b''] (the peer has closed), the marker opens
    the next chunk, or [recv] raises. *)
Inductive recording_end
  : list recv_result -> termination -> list recv_result -> Prop :=
| end_of_script : recording_end [] ByDisconnect []
| end_by_close (rest : list recv_result) :
    recording_end (RecvData [] :: rest) ByDisconnect rest
| end_by_marker (after : bytes) (rest : list recv_result) :
    recording_end (RecvData (END_RECORDING_SIGNAL ++ after) :: rest)
      ByMarker rest
| end_by_error (rest : list recv_result) :
    recording_end (RecvError :: rest) BySocketError rest.

(** The chunks of a stream that the relay loop writes. *)
Definition nonempty_chunks (chunks : list bytes) : list bytes :=
  filter (fun chunk => negb (is_empty chunk)) chunks.

(** The socket takes [n] more [sendall] calls from state [st] on. *)
Definition writes_accepted (p : peer) (st : conn_state) (n : nat) : Prop :=
  match send_limit p with
  | None => True
  | Some k => (sends st + n <= k)%nat
  end.

Definition after_writes (st : conn_state) (chunks : list bytes) : conn_state :=
  {| sends := sends st + List.length chunks;
     trace := trace st ++ List.map SendAll chunks |}.


(** A script that [conn.recv(CHUNK_SIZE)] can produce: no call gives more
    than [CHUNK_SIZE] bytes. *)
Definition recv_bounded (script : list recv_result) : bool :=
  forallb
    (fun r =>
       match r with
       | RecvData data => (List.length data <=? CHUNK_SIZE)%nat
       | RecvError => true
       end)
    script.

(** ** Concrete payloads and clients *)

(** A payload of 4 GiB less 36 bytes: the first length whose
    total-size-minus-8 field no longer fits four bytes. *)
Definition oversized_payload : bytes := repeat x00 (Z.to_nat (2 ^ 32 - 36)).

(** A peer whose collaborators answer the same whatever they are given and
    whose socket takes every write. *)
Definition scripted_peer (script : list recv_result) (reply : result text)
  (speech : result audio_stream) : peer :=
  {| recv_script := script;
     send_limit := None;
     gemini := fun _ => reply;
     elevenlabs := fun _ => speech |}.

(** [b"\x01\x02" * 100] *)
Definition scenario_audio : bytes := List.concat (repeat [x01; x02] 100).

(** The header of a 200-byte recording: 236 = 0xEC, 16000 = 0x3E80,
    32000 = 0x7D00, 200 = 0xC8. *)
Definition scenario_header : bytes :=
  b_lit "RIFF" ++ [xec; x00; x00; x00]
  ++ b_lit "WAVEfmt " ++ [x10; x00; x00; x00]
  ++ [x01; x00] ++ [x01; x00]
  ++ [x80; x3e; x00; x00] ++ [x00; x7d; x00; x00]
  ++ [x02; x00] ++ [x10; x00]
  ++ b_lit "data" ++ [xc8; x00; x00; x00].

(** The client of the scenario, its bytes arriving as [script]. *)
Definition scenario_peer (script : list recv_result) : peer :=
  scripted_peer script
    (Ok (str_lit "hello"))
    (Ok (stream_of [b_lit "AA"; b_lit "BB"] StreamEnd)).

(** The first byte of the marker. *)
Definition marker_head : byte := "E"%byte.

(** Two bytes arrive, then [recv] raises. *)
Definition interrupted_peer : peer :=
  scripted_peer [RecvData (b_lit "ab"); RecvError]
    (Ok (str_lit "hello"))
    (Ok (stream_of [b_lit "AA"; b_lit "BB"] StreamEnd)).

(** The client that sends the marker and nothing else. *)
Definition silent_peer : peer :=
  scenario_peer [RecvData END_RECORDING_SIGNAL].

(** A client whose recording the transcription collaborator rejects. *)
Definition rejected_peer : peer :=
  scripted_peer [RecvData (b_lit "ab"); RecvData END_RECORDING_SIGNAL]
    (Raise ApiError)
    (Ok (stream_of [b_lit "AA"; b_lit "BB"] StreamEnd)).

(** A client whose answer breaks off after three chunks, the second of
    them empty, on a socket that takes two writes and no more. *)
Definition cut_off_peer : peer :=
  {| recv_script := [RecvData (b_lit "ab"); RecvData END_RECORDING_SIGNAL];
     send_limit := Some 2%nat;
     gemini := fun _ => Ok (str_lit "hello");
     elevenlabs := fun _ =>
       Ok (stream_of [b_lit "AA"; []; b_lit "BB"] StreamFail) |}.

(** ** Vocabulary of the further statements *)

(** Every field of the header fits the width it is written with. *)
Definition header_fits (datasize sample_rate num_channels sample_width : Z)
  : Prop :=
  0 <= datasize /\ datasize + 36 < 2 ^ 32
  /\ 0 <= num_channels < 2 ^ 16
  /\ 0 <= sample_rate < 2 ^ 32
  /\ 0 <= sample_width
  /\ sample_rate * num_channels * sample_width < 2 ^ 32
  /\ num_channels * sample_width < 2 ^ 16
  /\ sample_width * 8 < 2 ^ 16.

(** [sep.join(pieces)] *)
Fixpoint bytes_join (sep : bytes) (pieces : list bytes) : bytes :=
  match pieces with
  | [] => []
  | piece :: rest =>
      match rest with
      | [] => piece
      | _ :: _ => piece ++ sep ++ bytes_join sep rest
      end
  end.

(** The chunks a stream yields before it ends or fails. *)
Fixpoint chunks_of (audio : audio_stream) : list bytes :=
  match audio with
  | StreamEnd | StreamFail => []
  | StreamChunk chunk rest => chunk :: chunks_of rest
  end.

(** The bytes the [recv] calls of a script deliver, in order. *)
Fixpoint received_bytes (script : list recv_result) : bytes :=
  match script with
  | [] => []
  | RecvData data :: rest => data ++ received_bytes rest
  | RecvError :: rest => received_bytes rest
  end.

(** A [recv] outcome that keeps the receive loop going. *)
Definition keeps_receiving (r : recv_result) : bool :=
  match r with
  | RecvData data =>
      negb (is_empty data) && negb (bytes_in END_RECORDING_SIGNAL data)
  | RecvError => false
  end.

(** A text made of white space only (the empty text included). *)
Definition blank (t : text) : bool := forallb isspace t.

(** ** Further concrete clients *)

(** A client that stops reading after one write, with an answer of four
    chunks, the second of them empty. *)
Definition hung_up_peer : peer :=
  {| recv_script := [RecvData (b_lit "ab"); RecvData END_RECORDING_SIGNAL];
     send_limit := Some 1%nat;
     gemini := fun _ => Ok (str_lit "hello");
     elevenlabs := fun _ =>
       Ok (stream_of [b_lit "AA"; []; b_lit "BB"; b_lit "CC"] StreamEnd) |}.

(** A client whose answer cannot be synthesized: the call itself raises. *)
Definition unvoiced_peer : peer :=
  scripted_peer [RecvData (b_lit "ab"); RecvData END_RECORDING_SIGNAL]
    (Ok (str_lit "hello"))
    (Raise ApiError).


(** A client that sends nothing at all. *)
Definition scenario_peer_of_nothing : peer := scenario_peer [].

(** * Properties *)

(** ** Little-endian fields *)

Lemma byte_to_of_Z (z : Z) : byte_to_Z (byte_of_Z z) = z mod 256.
Proof.
  unfold byte_to_Z, byte_of_Z.
  assert (Hr : 0 <= z mod 256 < 256) by (apply Z.mod_pos_bound; lia).
  destruct (Byte.of_N (Z.to_N (z mod 256))) as [b|] eqn:E.
  - apply Byte.to_of_N in E. rewrite E. lia.
  - apply Byte.of_N_None_iff in E. lia.
Qed.

Lemma le_digits_length (n : nat) (v : Z) : List.length (le_digits n v) = n.
Proof.
  revert v. induction n as [|n IH]; intro v; simpl; [reflexivity|].
  now rewrite IH.
Qed.

Lemma from_le_digits (n : nat) (v : Z) :
  0 <= v < 256 ^ Z.of_nat n -> from_le (le_digits n v) = v.
Proof.
  revert v. induction n as [|n IH]; intros v Hv.
  - simpl in *. lia.
  - cbn [le_digits from_le].
    rewrite byte_to_of_Z, Z.mod_mod by lia.
    rewrite IH.
    + pose proof (Z.div_mod v 256). lia.
    + rewrite Nat2Z.inj_succ, Z.pow_succ_r in Hv by lia.
      split; [apply Z.div_pos; lia|].
      apply Z.div_lt_upper_bound; lia.
Qed.

Lemma to_bytes_fits (v : Z) (n : nat) :
  0 <= v < 256 ^ Z.of_nat n -> to_bytes v n = Ok (le_digits n v).
Proof.
  intros [H0 H1]. unfold to_bytes.
  apply Z.leb_le in H0. apply Z.ltb_lt in H1.
  now rewrite H0, H1.
Qed.

Lemma to_bytes_overflow (v : Z) (n : nat) :
  256 ^ Z.of_nat n <= v -> to_bytes v n = Raise OverflowError.
Proof.
  intro H. unfold to_bytes.
  apply Z.ltb_ge in H. rewrite H. now rewrite andb_false_r.
Qed.

Lemma two_bytes (l : bytes) :
  List.length l = 2%nat -> exists a b, l = [a; b].
Proof.
  destruct l as [|a [|b [|c l]]]; simpl; intro H; try discriminate.
  now exists a, b.
Qed.

Lemma four_bytes (l : bytes) :
  List.length l = 4%nat -> exists a b c d, l = [a; b; c; d].
Proof.
  destruct l as [|a [|b [|c [|d [|e l]]]]]; simpl; intro H; try discriminate.
  now exists a, b, c, d.
Qed.

Ltac expose_digits n v :=
  let E := fresh "E" in
  first
    [ destruct (four_bytes _ (le_digits_length n v)) as (?a & ?b & ?c & ?d & E)
    | destruct (two_bytes _ (le_digits_length n v)) as (?a & ?b & E) ];
  pose proof (from_le_digits n v) as ?R;
  rewrite E in *.

(** Whenever every field fits its width, [wav_header] gives 44 bytes that
    read back as the values written. *)
Lemma wav_header_fields (datasize sample_rate num_channels sample_width : Z) :
  0 <= datasize -> datasize + 36 < 2 ^ 32 ->
  0 <= num_channels < 2 ^ 16 ->
  0 <= sample_rate < 2 ^ 32 ->
  0 <= sample_width ->
  sample_rate * num_channels * sample_width < 2 ^ 32 ->
  num_channels * sample_width < 2 ^ 16 ->
  sample_width * 8 < 2 ^ 16 ->
  exists header,
    wav_header datasize sample_rate num_channels sample_width = Ok header
    /\ List.length header = 44%nat
    /\ parse_header header =
         {| riff_tag := b_lit "RIFF";
            riff_size := datasize + 36;
            wave_fmt_tag := b_lit "WAVEfmt ";
            fmt_size := 16;
            format_tag := WAVE_FORMAT_PCM;
            channel_count := num_channels;
            rate := sample_rate;
            byte_rate := sample_rate * num_channels * sample_width;
            block_align := num_channels * sample_width;
            bits_per_sample := sample_width * 8;
            data_tag := b_lit "data";
            data_size := datasize |}.
Proof.
  intros Hd Hd36 Hc Hr Hw Hbr Hba Hbits.
  change (2 ^ 32) with (256 ^ Z.of_nat 4) in *.
  change (2 ^ 16) with (256 ^ Z.of_nat 2) in *.
  unfold wav_header.
  rewrite (to_bytes_fits (datasize + 36) 4) by lia.
  rewrite (to_bytes_fits datasize 4) by lia.
  rewrite (to_bytes_fits num_channels 2) by lia.
  rewrite (to_bytes_fits sample_rate 4) by lia.
  rewrite (to_bytes_fits (sample_rate * num_channels * sample_width) 4) by nia.
  rewrite (to_bytes_fits (num_channels * sample_width) 2) by nia.
  rewrite (to_bytes_fits (sample_width * 8) 2) by lia.
  cbn [rbind].
  change (to_bytes 16 4) with (Ok (le_digits 4 16)).
  change (to_bytes 1 2) with (Ok (le_digits 2 1)).
  cbn [rbind].
  eexists. split; [reflexivity|].
  expose_digits 4%nat (datasize + 36).
  expose_digits 4%nat datasize.
  expose_digits 2%nat num_channels.
  expose_digits 4%nat sample_rate.
  expose_digits 4%nat (sample_rate * num_channels * sample_width).
  expose_digits 2%nat (num_channels * sample_width).
  expose_digits 2%nat (sample_width * 8).
  split; [reflexivity|].
  unfold parse_header, slice.
  cbn [b_lit list_byte_of_string List.map list_ascii_of_string app skipn firstn
       le_digits].
  f_equal; try reflexivity; try (match goal with H : _ -> from_le _ = ?v |- _ = ?v => apply H end; nia).
Qed.

(** ** The container encoder *)

Lemma create_wav_header_overflow (payload : bytes)
  (sample_rate num_channels sample_width : Z) :
  2 ^ 32 <= len payload + 36 ->
  create_wav_header payload sample_rate num_channels sample_width
  = Raise OverflowError.
Proof.
  intro H. unfold create_wav_header, wav_header.
  rewrite to_bytes_overflow by exact H.
  reflexivity.
Qed.

Lemma repeat_not_nil {A : Type} (x : A) (n : nat) :
  (0 < n)%nat -> repeat x n <> [].
Proof. destruct n; [lia | discriminate]. Qed.

(** C1, as stated, fails: for the non-empty payload [oversized_payload] the
    encoder returns no container at all, [(datasize + 36).to_bytes(4,
    'little')] raises [OverflowError]. *)
Lemma create_wav_header_oversized :
  oversized_payload <> []
  /\ create_wav_header oversized_payload SAMPLE_RATE CHANNELS SAMPLE_WIDTH
     = Raise OverflowError.
Proof.
  split.
  - apply repeat_not_nil. lia.
  - apply create_wav_header_overflow.
    unfold len, oversized_payload.
    rewrite repeat_length, Z2Nat.id; lia.
Qed.

(** C1 (amended): for every payload whose length plus 36 fits four bytes
    (non-empty or not) and the fixed parameters, the encoder returns a
    44-byte header followed immediately by the unmodified payload; read as
    little-endian fields the header holds total-size-minus-8 =
    [len payload + 36], the PCM format tag, the channel count, the sample
    rate, byte rate = rate * channels * width, block align = channels *
    width, bits-per-sample = width * 8 and data-size = [len payload]. *)
Theorem create_wav_header_container (payload : bytes) :
  len payload + 36 < 2 ^ 32 ->
  exists header,
    create_wav_header payload SAMPLE_RATE CHANNELS SAMPLE_WIDTH
    = Ok (header ++ payload)
    /\ List.length header = 44%nat
    /\ parse_header header =
         {| riff_tag := b_lit "RIFF";
            riff_size := len payload + 36;
            wave_fmt_tag := b_lit "WAVEfmt ";
            fmt_size := 16;
            format_tag := WAVE_FORMAT_PCM;
            channel_count := CHANNELS;
            rate := SAMPLE_RATE;
            byte_rate := SAMPLE_RATE * CHANNELS * SAMPLE_WIDTH;
            block_align := CHANNELS * SAMPLE_WIDTH;
            bits_per_sample := SAMPLE_WIDTH * 8;
            data_tag := b_lit "data";
            data_size := len payload |}.
Proof.
  intro Hfit.
  assert (Hlen : 0 <= len payload) by (unfold len; lia).
  destruct (wav_header_fields (len payload) SAMPLE_RATE CHANNELS SAMPLE_WIDTH)
    as (header & Hhdr & Hsize & Hfields);
    try (unfold SAMPLE_RATE, CHANNELS, SAMPLE_WIDTH; lia).
  exists header. split; [|split; assumption].
  unfold create_wav_header. now rewrite Hhdr.
Qed.

Lemma create_wav_header_container_witness :
  exists header,
    create_wav_header [x01; x02] SAMPLE_RATE CHANNELS SAMPLE_WIDTH
    = Ok (header ++ [x01; x02])
    /\ List.length header = 44%nat
    /\ parse_header header =
         {| riff_tag := b_lit "RIFF";
            riff_size := 38;
            wave_fmt_tag := b_lit "WAVEfmt ";
            fmt_size := 16;
            format_tag := 1;
            channel_count := 1;
            rate := 16000;
            byte_rate := 32000;
            block_align := 2;
            bits_per_sample := 16;
            data_tag := b_lit "data";
            data_size := 2 |}.
Proof.
  apply (create_wav_header_container [x01; x02]).
  vm_compute. reflexivity.
Defined.

(** ** Searching for the marker *)

Lemma starts_with_iff (sep data : bytes) :
  starts_with sep data = true <-> exists after, data = sep ++ after.
Proof.
  revert data. induction sep as [|a sep IH]; intro data.
  - simpl. split; [intros _; now exists data | reflexivity].
  - destruct data as [|b data]; simpl.
    + split; [discriminate | intros [after H]; discriminate].
    + rewrite andb_true_iff, IH. split.
      * intros [Hab [after ->]]. apply Byte.byte_dec_bl in Hab. subst b.
        now exists after.
      * intros [after H]. injection H as -> ->. split.
        -- now apply Byte.byte_dec_lb.
        -- now exists after.
Qed.

Lemma bytes_in_iff (sep data : bytes) :
  bytes_in sep data = true
  <-> exists before after, data = before ++ sep ++ after.
Proof.
  induction data as [|b data IH]; simpl; rewrite orb_true_iff.
  - split.
    + intros [H | H]; [|discriminate].
      apply starts_with_iff in H as [after H]. now exists [], after.
    + intros (before & after & H). left.
      destruct before; [|discriminate].
      apply starts_with_iff. now exists after.
  - rewrite IH. split.
    + intros [H | (before & after & ->)].
      * apply starts_with_iff in H as [after H]. now exists [], after.
      * now exists (b :: before), after.
    + intros (before & after & H). destruct before as [|b' before].
      * left. apply starts_with_iff. now exists after.
      * right. injection H as -> ->. now exists before, after.
Qed.

Lemma bytes_in_too_short (sep data : bytes) :
  (List.length data < List.length sep)%nat -> bytes_in sep data = false.
Proof.
  intro Hlen. destruct (bytes_in sep data) eqn:E; [|reflexivity].
  apply bytes_in_iff in E as (before & after & ->).
  rewrite !length_app in Hlen. lia.
Qed.

(** The first piece of a split is what precedes the leftmost separator. *)
Lemma split_from_head (sep data piece : bytes) :
  bytes_in sep data = true ->
  exists before after,
    data = before ++ sep ++ after
    /\ hd [] (split_from sep 0 piece data) = piece ++ before
    /\ (forall before' after',
          data = before' ++ sep ++ after' ->
          (List.length before <= List.length before')%nat).
Proof.
  revert piece. induction data as [|b data IH]; intros piece Hin.
  - simpl in Hin. rewrite orb_false_r in Hin.
    apply starts_with_iff in Hin as [after H].
    exists [], after. repeat split.
    + exact H.
    + simpl. now rewrite app_nil_r.
    + intros. simpl. lia.
  - cbn [split_from]. cbn [bytes_in] in Hin.
    destruct (starts_with sep (b :: data)) eqn:Hs.
    + apply starts_with_iff in Hs as [after H].
      exists [], after. repeat split.
      * exact H.
      * simpl. now rewrite app_nil_r.
      * intros. simpl. lia.
    + simpl in Hin.
      destruct (IH (piece ++ [b]) Hin) as (before & after & -> & Hhd & Hmin).
      exists (b :: before), after. repeat split.
      * rewrite Hhd, <- app_assoc. reflexivity.
      * intros before' after' H. destruct before' as [|b' before'].
        -- assert (Hs' : starts_with sep (b :: before ++ sep ++ after) = true)
             by (apply starts_with_iff; now exists after').
           congruence.
        -- injection H as _ H. simpl. apply le_n_S. now apply (Hmin _ after').
Qed.

Lemma marker_length : List.length END_RECORDING_SIGNAL = 20%nat.
Proof. reflexivity. Qed.

Lemma marker_chunk_not_empty (data : bytes) :
  bytes_in END_RECORDING_SIGNAL data = true -> is_empty data = false.
Proof.
  intro H. destruct data; [|reflexivity].
  rewrite bytes_in_too_short in H; [discriminate|].
  rewrite marker_length. simpl. lia.
Qed.

(** ** The receive loop *)

Lemma receive_step_audio (audio_buffer data : bytes) :
  audio_chunk data ->
  receive_step audio_buffer (RecvData data) = (audio_buffer ++ data, None).
Proof.
  intros [Hne Hfree]. unfold receive_step. now rewrite Hne, Hfree.
Qed.

Lemma receive_step_marker (audio_buffer data : bytes) :
  bytes_in END_RECORDING_SIGNAL data = true ->
  exists before after,
    data = before ++ END_RECORDING_SIGNAL ++ after
    /\ (forall before' after',
          data = before' ++ END_RECORDING_SIGNAL ++ after' ->
          (List.length before <= List.length before')%nat)
    /\ receive_step audio_buffer (RecvData data)
       = (audio_buffer ++ before, Some ByMarker).
Proof.
  intro Hin.
  destruct (split_from_head _ _ [] Hin) as (before & after & Hdata & Hhd & Hmin).
  exists before, after. repeat split; try assumption.
  unfold receive_step, bytes_split.
  rewrite (marker_chunk_not_empty _ Hin), Hin, Hhd. reflexivity.
Qed.

(** Plain audio chunks are appended one after the other and the loop goes
    on with what follows them. *)
Lemma receive_loop_audio (chunks : list bytes) :
  Forall audio_chunk chunks ->
  forall (audio_buffer : bytes) (tail : list recv_result),
    receive_loop audio_buffer (List.map RecvData chunks ++ tail)
    = receive_loop (audio_buffer ++ List.concat chunks) tail.
Proof.
  induction 1 as [|data chunks Hdata _ IH]; intros audio_buffer tail.
  - simpl. now rewrite app_nil_r.
  - cbn [List.map app receive_loop List.concat].
    rewrite (receive_step_audio _ _ Hdata), IH, app_assoc. reflexivity.
Qed.

(** C2: when a received chunk contains the marker, the loop appends the
    bytes of that chunk that precede the (leftmost) marker and nothing
    else, then stops without reading further; what follows the marker in
    the chunk is dropped.  [chunks] are the chunks received before, so the
    buffer holds their concatenation when the chunk arrives; when the
    marker is a chunk of its own the recording is exactly that
    concatenation. *)
Theorem marker_chunk_ends_recording
  (chunks : list bytes) (data : bytes) (rest : list recv_result) :
  Forall audio_chunk chunks ->
  bytes_in END_RECORDING_SIGNAL data = true ->
  exists before after,
    data = before ++ END_RECORDING_SIGNAL ++ after
    /\ (forall before' after',
          data = before' ++ END_RECORDING_SIGNAL ++ after' ->
          (List.length before <= List.length before')%nat)
    /\ receive_loop [] (List.map RecvData chunks ++ RecvData data :: rest)
       = (List.concat chunks ++ before, ByMarker, rest)
    /\ (data = END_RECORDING_SIGNAL ->
        receive_loop [] (List.map RecvData chunks ++ RecvData data :: rest)
        = (List.concat chunks, ByMarker, rest)).
Proof.
  intros Hchunks Hin.
  destruct (receive_step_marker (List.concat chunks) data Hin)
    as (before & after & Hdata & Hmin & Hstep).
  assert (Hloop :
    receive_loop [] (List.map RecvData chunks ++ RecvData data :: rest)
    = (List.concat chunks ++ before, ByMarker, rest)).
  { rewrite (receive_loop_audio chunks Hchunks). cbn [app receive_loop].
    now rewrite Hstep. }
  exists before, after. repeat split; try assumption.
  intro Hown. rewrite Hloop.
  specialize (Hmin [] []). rewrite app_nil_r in Hmin.
  specialize (Hmin Hown). destruct before; [|simpl in Hmin; lia].
  now rewrite app_nil_r.
Qed.

Lemma marker_chunk_ends_recording_witness :
  exists before after,
    b_lit "cdEND_RECORDING_SIGNALxyz"
    = before ++ END_RECORDING_SIGNAL ++ after
    /\ (forall before' after',
          b_lit "cdEND_RECORDING_SIGNALxyz"
          = before' ++ END_RECORDING_SIGNAL ++ after' ->
          (List.length before <= List.length before')%nat)
    /\ receive_loop []
         (List.map RecvData [b_lit "ab"]
          ++ RecvData (b_lit "cdEND_RECORDING_SIGNALxyz")
          :: [RecvData (b_lit "zz")])
       = (List.concat [b_lit "ab"] ++ before, ByMarker, [RecvData (b_lit "zz")])
    /\ (b_lit "cdEND_RECORDING_SIGNALxyz" = END_RECORDING_SIGNAL ->
        receive_loop []
          (List.map RecvData [b_lit "ab"]
           ++ RecvData (b_lit "cdEND_RECORDING_SIGNALxyz")
           :: [RecvData (b_lit "zz")])
        = (List.concat [b_lit "ab"], ByMarker, [RecvData (b_lit "zz")])).
Proof.
  apply (marker_chunk_ends_recording
           [b_lit "ab"] (b_lit "cdEND_RECORDING_SIGNALxyz")
           [RecvData (b_lit "zz")]).
  - repeat constructor.
  - reflexivity.
Defined.

Lemma receive_loop_end (audio_buffer : bytes) (tail rest : list recv_result)
  (stop : termination) :
  recording_end tail stop rest ->
  receive_loop audio_buffer tail = (audio_buffer, stop, rest).
Proof.
  intros [ | rest' | after rest' | rest']; try reflexivity.
  assert (Hin : bytes_in END_RECORDING_SIGNAL (END_RECORDING_SIGNAL ++ after)
                = true) by (apply bytes_in_iff; now exists [], after).
  destruct (receive_step_marker audio_buffer _ Hin)
    as (before & after' & _ & Hmin & Hstep).
  cbn [receive_loop]. rewrite Hstep.
  specialize (Hmin [] after eq_refl).
  destruct before; [|simpl in Hmin; lia].
  now rewrite app_nil_r.
Qed.

(** C6: however a byte sequence [audio] is cut into received chunks, none
    of them containing the marker (a received chunk is never empty: [b'']
    is how [recv] reports that the peer has closed), the buffer at
    termination is [audio], whichever way the recording ends. *)
Theorem accumulation_is_concatenation
  (audio : bytes) (chunks : list bytes) (tail rest : list recv_result)
  (stop : termination) :
  List.concat chunks = audio ->
  Forall audio_chunk chunks ->
  recording_end tail stop rest ->
  receive_loop [] (List.map RecvData chunks ++ tail) = (audio, stop, rest).
Proof.
  intros <- Hchunks Hend.
  rewrite (receive_loop_audio chunks Hchunks).
  apply (receive_loop_end _ _ _ _ Hend).
Qed.

Lemma accumulation_is_concatenation_witness :
  receive_loop []
    (List.map RecvData [b_lit "a"; b_lit "bcd"; b_lit "ef"]
     ++ [RecvData (END_RECORDING_SIGNAL ++ b_lit "tail"); RecvData (b_lit "x")])
  = (b_lit "abcdef", ByMarker, [RecvData (b_lit "x")])
  /\ receive_loop []
       (List.map RecvData [b_lit "abc"; b_lit "def"] ++ [])
     = (b_lit "abcdef", ByDisconnect, []).
Proof.
  split.
  - apply (accumulation_is_concatenation (b_lit "abcdef")
             [b_lit "a"; b_lit "bcd"; b_lit "ef"]).
    + reflexivity.
    + repeat constructor.
    + apply end_by_marker.
  - apply (accumulation_is_concatenation (b_lit "abcdef")
             [b_lit "abc"; b_lit "def"]).
    + reflexivity.
    + repeat constructor.
    + apply end_of_script.
Defined.

(** A marker cut in two and sent as two chunks passes for audio. *)
Lemma split_marker_is_audio (c1 c2 : bytes) :
  c1 <> [] -> c2 <> [] -> c1 ++ c2 = END_RECORDING_SIGNAL ->
  audio_chunk c1 /\ audio_chunk c2.
Proof.
  intros H1 H2 Hcut.
  assert (Hlen : (List.length c1 + List.length c2 = 20)%nat)
    by (rewrite <- length_app, Hcut; reflexivity).
  assert (0 < List.length c1)%nat by (destruct c1; [congruence | simpl; lia]).
  assert (0 < List.length c2)%nat by (destruct c2; [congruence | simpl; lia]).
  split; (split; [match goal with |- is_empty ?c = _ =>
                    destruct c; [congruence | reflexivity] end
                 | apply bytes_in_too_short; rewrite marker_length; lia]).
Qed.

(** C9: a turn of the loop signals the marker exactly when the chunk it
    received contains the whole marker.  A marker cut in two non-empty
    parts that arrive as consecutive chunks is not detected, whatever the
    cut: both parts go into the buffer like audio and the loop keeps
    receiving.  So in the stream [abEND_RECORD], [ING_SIGNALcd] the twenty
    marker bytes end up in the recording, which ends by disconnection. *)
Theorem marker_detected_only_within_a_chunk :
  (forall (audio_buffer data : bytes),
      snd (receive_step audio_buffer (RecvData data)) = Some ByMarker
      <-> exists before after, data = before ++ END_RECORDING_SIGNAL ++ after)
  /\ (forall (c1 c2 audio_buffer : bytes) (tail : list recv_result),
        c1 <> [] -> c2 <> [] -> c1 ++ c2 = END_RECORDING_SIGNAL ->
        receive_loop audio_buffer (RecvData c1 :: RecvData c2 :: tail)
        = receive_loop (audio_buffer ++ END_RECORDING_SIGNAL) tail)
  /\ receive_loop []
       [RecvData (b_lit "abEND_RECORD"); RecvData (b_lit "ING_SIGNALcd")]
     = (b_lit "ab" ++ END_RECORDING_SIGNAL ++ b_lit "cd", ByDisconnect, []).
Proof.
  split; [|split].
  - intros audio_buffer data. rewrite <- bytes_in_iff. split.
    + unfold receive_step.
      destruct (is_empty data); [discriminate|].
      destruct (bytes_in END_RECORDING_SIGNAL data); [reflexivity | discriminate].
    + intro Hin.
      destruct (receive_step_marker audio_buffer data Hin)
        as (before & after & _ & _ & ->).
      reflexivity.
  - intros c1 c2 audio_buffer tail H1 H2 Hcut.
    destruct (split_marker_is_audio c1 c2 H1 H2 Hcut) as [Ha1 Ha2].
    change (RecvData c1 :: RecvData c2 :: tail)
      with (List.map RecvData [c1; c2] ++ tail).
    rewrite receive_loop_audio
      by (constructor; [exact Ha1 | constructor; [exact Ha2 | constructor]]).
    cbn [List.concat]. now rewrite app_nil_r, Hcut.
  - reflexivity.
Qed.

(** ** Relaying the synthesis stream *)

Lemma is_empty_false {A : Type} (l : list A) : is_empty l = false <-> l <> [].
Proof. destruct l; simpl; split; congruence. Qed.

(** With a text that is not blank and can be printed, the function is its
    [try] block. *)
Lemma generate_and_stream_printed (p : peer) (t : text) (st : conn_state) :
  is_empty (strip t) = false ->
  printable t = true ->
  generate_and_stream_elevenlabs_audio p t st
  = try_except (audio <- convert p t ;; relay p audio) (fun _ => ret tt) st.
Proof.
  intros Hvis Hprint.
  unfold generate_and_stream_elevenlabs_audio. rewrite Hvis.
  unfold bind at 1, print_text. now rewrite Hprint.
Qed.


(** Once transcription has answered, what is left of [process_conversation]
    is the [print] of the answer and the call of
    [generate_and_stream_elevenlabs_audio], inside the [try] block. *)
Lemma process_conversation_replied
  (p : peer) (audio wav : bytes) (t : text) (st : conn_state) :
  is_empty audio = false ->
  create_wav_header audio SAMPLE_RATE CHANNELS SAMPLE_WIDTH = Ok wav ->
  gemini p wav = Ok t ->
  process_conversation p audio st
  = try_except
      (print_text t ;; generate_and_stream_elevenlabs_audio p t)
      (fun _ => ret tt)
      {| sends := sends st; trace := trace st ++ [Transcribe wav] |}.
Proof.
  intros Haudio Hwav Hreply.
  unfold process_conversation. rewrite Haudio.
  unfold try_except, bind at 1, lift at 1. rewrite Hwav.
  unfold bind at 1, generate_content, bind at 1, emit, lift.
  now rewrite Hreply.
Qed.

(** When the answer is not blank and can be printed, what is left is the
    [try] block of [generate_and_stream_elevenlabs_audio]. *)
Lemma process_conversation_printed
  (p : peer) (audio wav : bytes) (t : text) (st : conn_state) :
  is_empty audio = false ->
  create_wav_header audio SAMPLE_RATE CHANNELS SAMPLE_WIDTH = Ok wav ->
  gemini p wav = Ok t ->
  is_empty (strip t) = false ->
  printable t = true ->
  process_conversation p audio st
  = try_except (stream <- convert p t ;; relay p stream) (fun _ => ret tt)
      {| sends := sends st; trace := trace st ++ [Transcribe wav] |}.
Proof.
  intros Haudio Hwav Hreply Hvis Hprint.
  rewrite (process_conversation_replied p audio wav t st Haudio Hwav Hreply).
  unfold try_except at 1, bind at 1, print_text. rewrite Hprint. cbn [ret].
  rewrite (generate_and_stream_printed p t _ Hvis Hprint).
  unfold try_except.
  now destruct ((stream <- convert p t ;; relay p stream) _) as [[[]|e] st'].
Qed.

Lemma concat_nonempty_chunks (chunks : list bytes) :
  List.concat (nonempty_chunks chunks) = List.concat chunks.
Proof.
  induction chunks as [|c chunks IH]; [reflexivity|].
  destruct c; simpl; [exact IH | now rewrite IH].
Qed.

Lemma bytes_sent_app (tr1 tr2 : list event) :
  bytes_sent (tr1 ++ tr2) = bytes_sent tr1 ++ bytes_sent tr2.
Proof.
  induction tr1 as [|e tr1 IH]; [reflexivity|].
  destruct e; simpl; rewrite IH; try reflexivity.
  now rewrite app_assoc.
Qed.

Lemma bytes_sent_writes (chunks : list bytes) :
  bytes_sent (List.map SendAll chunks) = List.concat chunks.
Proof.
  induction chunks as [|c chunks IH]; [reflexivity|].
  simpl. now rewrite IH.
Qed.

Lemma conn_sendall_accepted (p : peer) (chunk : bytes) (st : conn_state) :
  writes_accepted p st 1 ->
  conn_sendall p chunk st = (Ok tt, after_writes st [chunk]).
Proof.
  unfold writes_accepted, conn_sendall, after_writes. simpl.
  rewrite Nat.add_1_r.
  destruct (send_limit p) as [k|]; [|reflexivity].
  intro Hk. destruct (Nat.leb_spec k (sends st)); [lia | reflexivity].
Qed.

Lemma after_writes_app (st : conn_state) (cs1 cs2 : list bytes) :
  after_writes (after_writes st cs1) cs2 = after_writes st (cs1 ++ cs2).
Proof.
  unfold after_writes. simpl.
  rewrite length_app, List.map_app, Nat.add_assoc, app_assoc. reflexivity.
Qed.

(** While the socket takes the writes, the loop sends the non-empty chunks
    of the stream in order, passes over the empty ones, and goes on with
    the rest of the stream. *)
Lemma relay_chunks (p : peer) (chunks : list bytes) (tail : audio_stream) :
  forall st : conn_state,
    writes_accepted p st (List.length (nonempty_chunks chunks)) ->
    relay p (stream_of chunks tail) st
    = relay p tail (after_writes st (nonempty_chunks chunks)).
Proof.
  induction chunks as [|c chunks IH]; intros st Hw.
  - simpl. unfold after_writes. simpl.
    rewrite Nat.add_0_r, app_nil_r. now destruct st.
  - cbn [stream_of relay]. unfold bind at 1.
    destruct c as [|b c].
    + cbn [is_empty ret]. apply IH. exact Hw.
    + cbn [is_empty nonempty_chunks filter negb] in *.
      fold (nonempty_chunks chunks) in *.
      rewrite conn_sendall_accepted.
      * rewrite IH.
        -- now rewrite after_writes_app.
        -- unfold writes_accepted, after_writes in *. simpl in *.
           destruct (send_limit p); [lia | exact I].
      * unfold writes_accepted in *. simpl in *.
        destruct (send_limit p); [lia | exact I].
Qed.

(** C10: an empty chunk yielded by the synthesis stream is passed over:
    it is not written and the loop goes on with the next chunk.  So for a
    stream that ends normally, on a socket that takes the writes, the
    [sendall] calls are the non-empty chunks in the order produced, and
    the bytes sent to the client are their concatenation. *)
Theorem empty_chunks_are_skipped
  (p : peer) (chunks : list bytes) (st : conn_state) :
  writes_accepted p st (List.length (nonempty_chunks chunks)) ->
  exists st',
    relay p (stream_of chunks StreamEnd) st = (Ok tt, st')
    /\ trace st' = trace st ++ List.map SendAll (nonempty_chunks chunks)
    /\ bytes_sent (trace st')
       = bytes_sent (trace st) ++ List.concat (nonempty_chunks chunks)
    /\ relay p (StreamChunk [] (stream_of chunks StreamEnd)) st = (Ok tt, st').
Proof.
  intro Hw.
  exists (after_writes st (nonempty_chunks chunks)).
  assert (Hrun : relay p (stream_of chunks StreamEnd) st
                 = (Ok tt, after_writes st (nonempty_chunks chunks)))
    by (rewrite (relay_chunks p chunks StreamEnd st Hw); reflexivity).
  repeat split.
  - exact Hrun.
  - unfold after_writes. cbn [trace].
    now rewrite bytes_sent_app, bytes_sent_writes.
  - rewrite <- Hrun. reflexivity.
Qed.


(** ** One session *)

Lemma process_conversation_empty (p : peer) (st : conn_state) :
  process_conversation p [] st = (Ok tt, st).
Proof. reflexivity. Qed.

(** C3: when the recording is empty at termination, [process_conversation]
    returns at once, so the session calls neither collaborator and writes
    no byte to the socket: its only event is the close of the connection. *)
Theorem empty_recording_short_circuit (p : peer) :
  received_audio p = [] ->
  serve_connection p = (Ok tt, [Close])
  /\ existsb is_collaborator_call (snd (serve_connection p)) = false
  /\ existsb is_write (snd (serve_connection p)) = false
  /\ bytes_sent (snd (serve_connection p)) = [].
Proof.
  intro Hempty.
  assert (Hrun : serve_connection p = (Ok tt, [Close])).
  { unfold serve_connection.
    now rewrite Hempty, process_conversation_empty. }
  rewrite Hrun. now repeat split.
Qed.


(** ** Sessions always complete *)








(** ** Read failures *)



(** ** The end-to-end scenario *)

Lemma marker_needs_its_head (data : bytes) :
  ~ In marker_head data -> bytes_in END_RECORDING_SIGNAL data = false.
Proof.
  intro Hfree. destruct (bytes_in END_RECORDING_SIGNAL data) eqn:E;
    [|reflexivity].
  apply bytes_in_iff in E as (before & after & ->).
  exfalso. apply Hfree. apply in_or_app. right. now left.
Qed.

(** Audio without the marker's first byte, then the marker: the cut falls
    exactly between them. *)
Lemma receive_step_marker_tail (audio_buffer last_audio : bytes) :
  ~ In marker_head last_audio ->
  receive_step audio_buffer (RecvData (last_audio ++ END_RECORDING_SIGNAL))
  = (audio_buffer ++ last_audio, Some ByMarker).
Proof.
  intro Hfree.
  assert (Hin : bytes_in END_RECORDING_SIGNAL
                  (last_audio ++ END_RECORDING_SIGNAL) = true)
    by (apply bytes_in_iff; exists last_audio, []; now rewrite app_nil_r).
  destruct (receive_step_marker audio_buffer _ Hin)
    as (before & after & Hdata & Hmin & ->).
  specialize (Hmin last_audio []). rewrite app_nil_r in Hmin.
  specialize (Hmin eq_refl).
  enough (before = last_audio) by now subst.
  clear Hin. revert before Hdata Hmin.
  induction last_audio as [|b last_audio IH]; intros before Hdata Hmin.
  - destruct before; [reflexivity | simpl in Hmin; lia].
  - destruct before as [|b' before].
    + exfalso. apply Hfree. left. now injection Hdata.
    + injection Hdata as <- Hdata. f_equal.
      apply IH; [|exact Hdata | simpl in Hmin; lia].
      intro H. apply Hfree. now right.
Qed.

Lemma scenario_audio_clean : ~ In marker_head scenario_audio.
Proof.
  intro H.
  assert (Hex : existsb (Byte.eqb marker_head) scenario_audio = true).
  { apply existsb_exists. exists marker_head. split; [exact H | reflexivity]. }
  vm_compute in Hex. discriminate.
Qed.

(** However the scenario's audio is cut into non-empty chunks, the marker
    coming at the end of the last one or as a chunk of its own, the
    recording is the scenario's audio. *)
Lemma scenario_recording (chunks : list bytes) (last_audio : bytes) :
  List.concat chunks ++ last_audio = scenario_audio ->
  Forall (fun chunk => chunk <> []) chunks ->
  receive_loop []
    (List.map RecvData chunks
     ++ [RecvData (last_audio ++ END_RECORDING_SIGNAL)])
  = (scenario_audio, ByMarker, []).
Proof.
  intros Hcut Hne.
  assert (Hclean : forall b, In b (List.concat chunks ++ last_audio) ->
                             b <> marker_head).
  { intros b Hb ->. rewrite Hcut in Hb. now apply scenario_audio_clean. }
  assert (Hchunks : Forall audio_chunk chunks).
  { apply Forall_forall. intros chunk Hchunk. split.
    - apply is_empty_false. now apply (proj1 (Forall_forall _ _) Hne).
    - apply marker_needs_its_head. intro Hhead.
      apply (Hclean marker_head); [|reflexivity].
      apply in_or_app. left. apply in_concat. now exists chunk. }
  rewrite (receive_loop_audio chunks Hchunks). cbn [receive_loop app].
  rewrite receive_step_marker_tail, Hcut; [reflexivity|].
  intro Hhead. apply (Hclean marker_head); [|reflexivity].
  apply in_or_app. now right.
Qed.

(** C7, as stated, fails: in the scenario the container handed to the
    transcription collaborator is 244 bytes long (44 + 200), not 636. *)
Lemma scenario_container_is_not_636_bytes :
  serve_connection
    (scenario_peer [RecvData scenario_audio; RecvData END_RECORDING_SIGNAL])
  = (Ok tt,
     [Transcribe (scenario_header ++ scenario_audio);
      Synthesize (str_lit "hello");
      SendAll (b_lit "AA"); SendAll (b_lit "BB"); Close])
  /\ List.length (scenario_header ++ scenario_audio) = 244%nat
  /\ List.length (scenario_header ++ scenario_audio) <> 636%nat.
Proof.
  split; [reflexivity|].
  split; [reflexivity|].
  vm_compute. discriminate.
Qed.

(** C7 (amended): the client sends [b"\x01\x02" * 100] (200 bytes), in any
    chunking, followed by the marker; transcription returns ["hello"],
    synthesis yields [b"AA"] then [b"BB"], and the socket takes the writes.
    Then the server builds a 244-byte container, a 44-byte header plus the
    200-byte payload, submits it, submits ["hello"] for synthesis, and the
    client receives exactly [b"AABB"] followed by the close of the
    connection. *)
Theorem end_to_end_scenario
  (p : peer) (chunks : list bytes) (last_audio : bytes) :
  List.concat chunks ++ last_audio = scenario_audio ->
  Forall (fun chunk => chunk <> []) chunks ->
  recv_script p
  = List.map RecvData chunks
    ++ [RecvData (last_audio ++ END_RECORDING_SIGNAL)] ->
  (forall wav, gemini p wav = Ok (str_lit "hello")) ->
  elevenlabs p (str_lit "hello")
  = Ok (stream_of [b_lit "AA"; b_lit "BB"] StreamEnd) ->
  send_limit p = None ->
  create_wav_header scenario_audio SAMPLE_RATE CHANNELS SAMPLE_WIDTH
  = Ok (scenario_header ++ scenario_audio)
  /\ List.length scenario_header = 44%nat
  /\ List.length scenario_audio = 200%nat
  /\ List.length (scenario_header ++ scenario_audio) = 244%nat
  /\ serve_connection p
     = (Ok tt,
        [Transcribe (scenario_header ++ scenario_audio);
         Synthesize (str_lit "hello");
         SendAll (b_lit "AA"); SendAll (b_lit "BB"); Close])
  /\ bytes_sent (snd (serve_connection p)) = b_lit "AABB".
Proof.
  intros Hcut Hne Hscript Hreply Hspeech Hsend.
  assert (Hwav : create_wav_header scenario_audio
                   SAMPLE_RATE CHANNELS SAMPLE_WIDTH
                 = Ok (scenario_header ++ scenario_audio)) by reflexivity.
  assert (Haudio : received_audio p = scenario_audio).
  { unfold received_audio.
    now rewrite Hscript, (scenario_recording chunks last_audio Hcut Hne). }
  assert (Hrun : serve_connection p
                 = (Ok tt,
                    [Transcribe (scenario_header ++ scenario_audio);
                     Synthesize (str_lit "hello");
                     SendAll (b_lit "AA"); SendAll (b_lit "BB"); Close])).
  { unfold serve_connection, process_conversation. rewrite Haudio.
    change (is_empty scenario_audio) with false. cbv iota.
    unfold try_except, bind at 1, lift at 1. rewrite Hwav.
    unfold bind at 1, generate_content, bind, emit, lift.
    rewrite Hreply.
    unfold generate_and_stream_elevenlabs_audio.
    change (is_empty (strip (str_lit "hello"))) with false. cbv iota.
    unfold try_except, bind at 1, convert, bind, emit, lift.
    rewrite Hspeech.
    cbn [stream_of relay is_empty b_lit list_byte_of_string List.map
         list_ascii_of_string].
    unfold bind, conn_sendall, ret. rewrite Hsend.
    reflexivity. }
  repeat split; try reflexivity; try exact Hrun.
  now rewrite Hrun.
Qed.

Lemma end_to_end_scenario_witness :
  create_wav_header scenario_audio SAMPLE_RATE CHANNELS SAMPLE_WIDTH
  = Ok (scenario_header ++ scenario_audio)
  /\ List.length scenario_header = 44%nat
  /\ List.length scenario_audio = 200%nat
  /\ List.length (scenario_header ++ scenario_audio) = 244%nat
  /\ serve_connection
       (scenario_peer
          [RecvData (firstn 120 scenario_audio);
           RecvData (skipn 120 scenario_audio ++ END_RECORDING_SIGNAL)])
     = (Ok tt,
        [Transcribe (scenario_header ++ scenario_audio);
         Synthesize (str_lit "hello");
         SendAll (b_lit "AA"); SendAll (b_lit "BB"); Close])
  /\ bytes_sent
       (snd (serve_connection
          (scenario_peer
             [RecvData (firstn 120 scenario_audio);
              RecvData (skipn 120 scenario_audio ++ END_RECORDING_SIGNAL)])))
     = b_lit "AABB".
Proof.
  apply (end_to_end_scenario
           (scenario_peer
              [RecvData (firstn 120 scenario_audio);
               RecvData (skipn 120 scenario_audio ++ END_RECORDING_SIGNAL)])
           [firstn 120 scenario_audio] (skipn 120 scenario_audio)).
  - vm_compute. reflexivity.
  - constructor; [vm_compute; discriminate | constructor].
  - reflexivity.
  - intro wav. reflexivity.
  - reflexivity.
  - reflexivity.
Defined.

(** ** The theorems at concrete sessions *)

(** The clients used below stay within what [recv] can give. *)
Lemma concrete_scripts_bounded :
  forallb recv_bounded
    (List.map recv_script
       [interrupted_peer; silent_peer; rejected_peer; cut_off_peer;
        scenario_peer [RecvData scenario_audio; RecvData END_RECORDING_SIGNAL];
        scenario_peer
          [RecvData (firstn 120 scenario_audio);
           RecvData (skipn 120 scenario_audio ++ END_RECORDING_SIGNAL)]])
  = true.
Proof. vm_compute. reflexivity. Qed.

Lemma empty_recording_short_circuit_witness :
  serve_connection silent_peer = (Ok tt, [Close])
  /\ existsb is_collaborator_call (snd (serve_connection silent_peer)) = false
  /\ existsb is_write (snd (serve_connection silent_peer)) = false
  /\ bytes_sent (snd (serve_connection silent_peer)) = [].
Proof.
  apply (empty_recording_short_circuit silent_peer).
  reflexivity.
Defined.



Lemma empty_chunks_are_skipped_witness :
  exists st',
    relay cut_off_peer (stream_of [b_lit "AA"; []; b_lit "BB"] StreamEnd) fresh
    = (Ok tt, st')
    /\ trace st'
       = trace fresh
         ++ List.map SendAll (nonempty_chunks [b_lit "AA"; []; b_lit "BB"])
    /\ bytes_sent (trace st')
       = bytes_sent (trace fresh)
         ++ List.concat (nonempty_chunks [b_lit "AA"; []; b_lit "BB"])
    /\ relay cut_off_peer
         (StreamChunk [] (stream_of [b_lit "AA"; []; b_lit "BB"] StreamEnd))
         fresh
       = (Ok tt, st').
Proof.
  apply (empty_chunks_are_skipped
           cut_off_peer [b_lit "AA"; []; b_lit "BB"] fresh).
  vm_compute. lia.
Defined.


(** * Further properties of the code *)

(** ** [int.to_bytes] and the header, for any parameters *)

(** X1: [v.to_bytes(n, 'little')] gives [n] bytes that read back as [v]
    when [0 <= v < 256 ^ n], and raises [OverflowError] otherwise. *)
Theorem to_bytes_round_trip (v : Z) (n : nat) :
  (0 <= v < 256 ^ Z.of_nat n ->
   exists bs,
     to_bytes v n = Ok bs /\ List.length bs = n /\ from_le bs = v)
  /\ (~ (0 <= v < 256 ^ Z.of_nat n) -> to_bytes v n = Raise OverflowError).
Proof.
  split.
  - intro Hfit. exists (le_digits n v). split; [|split].
    + now apply to_bytes_fits.
    + apply le_digits_length.
    + now apply from_le_digits.
  - intro Hout. unfold to_bytes.
    destruct (Z.leb_spec 0 v); [|reflexivity].
    destruct (Z.ltb_spec v (256 ^ Z.of_nat n)); [lia | reflexivity].
Qed.

Lemma to_bytes_cases (v : Z) (n : nat) :
  (0 <= v < 256 ^ Z.of_nat n /\ to_bytes v n = Ok (le_digits n v))
  \/ (~ (0 <= v < 256 ^ Z.of_nat n) /\ to_bytes v n = Raise OverflowError).
Proof.
  unfold to_bytes.
  destruct (Z.leb_spec 0 v); [|right; split; [lia | reflexivity]].
  destruct (Z.ltb_spec v (256 ^ Z.of_nat n));
    [left | right]; (split; [lia | reflexivity]).
Qed.

(** [wav_header] succeeds exactly when every field fits, and raises
    [OverflowError] otherwise. *)
Lemma wav_header_cases (datasize sample_rate num_channels sample_width : Z) :
  (header_fits datasize sample_rate num_channels sample_width
   /\ exists header,
       wav_header datasize sample_rate num_channels sample_width = Ok header)
  \/ (~ header_fits datasize sample_rate num_channels sample_width
      /\ wav_header datasize sample_rate num_channels sample_width
         = Raise OverflowError).
Proof.
  unfold wav_header, header_fits.
  change (2 ^ 32) with (256 ^ Z.of_nat 4).
  change (2 ^ 16) with (256 ^ Z.of_nat 2).
  destruct (to_bytes_cases (datasize + 36) 4) as [[H1 ->] | [H1 ->]];
    [|right; split; [nia | reflexivity]].
  cbn [rbind].
  change (to_bytes 16 4) with (Ok (le_digits 4 16)).
  change (to_bytes 1 2) with (Ok (le_digits 2 1)).
  cbn [rbind].
  destruct (to_bytes_cases num_channels 2) as [[H2 ->] | [H2 ->]];
    [|right; split; [nia | reflexivity]].
  cbn [rbind].
  destruct (to_bytes_cases sample_rate 4) as [[H3 ->] | [H3 ->]];
    [|right; split; [nia | reflexivity]].
  cbn [rbind].
  destruct (to_bytes_cases (sample_rate * num_channels * sample_width) 4)
    as [[H4 ->] | [H4 ->]];
    [|right; split; [nia | reflexivity]].
  cbn [rbind].
  destruct (to_bytes_cases (num_channels * sample_width) 2)
    as [[H5 ->] | [H5 ->]];
    [|right; split; [nia | reflexivity]].
  cbn [rbind].
  destruct (to_bytes_cases (sample_width * 8) 2) as [[H6 ->] | [H6 ->]];
    [|right; split; [nia | reflexivity]].
  cbn [rbind].
  destruct (to_bytes_cases datasize 4) as [[H7 ->] | [H7 ->]];
    [|right; split; [nia | reflexivity]].
  cbn [rbind].
  left. split; [nia | eexists; reflexivity].
Qed.

(** X2: [create_wav_header] returns a container exactly when every field
    fits its width, and raises [OverflowError], nothing else, exactly when
    one does not. *)
Theorem create_wav_header_overflow_iff
  (payload : bytes) (sample_rate num_channels sample_width : Z) :
  (header_fits (len payload) sample_rate num_channels sample_width
   <-> exists wav,
        create_wav_header payload sample_rate num_channels sample_width
        = Ok wav)
  /\ (~ header_fits (len payload) sample_rate num_channels sample_width
      <-> create_wav_header payload sample_rate num_channels sample_width
          = Raise OverflowError)
  /\ (forall e,
        create_wav_header payload sample_rate num_channels sample_width
        = Raise e -> e = OverflowError).
Proof.
  unfold create_wav_header.
  destruct (wav_header_cases (len payload) sample_rate num_channels sample_width)
    as [[Hfit [header ->]] | [Hout ->]]; cbn [rbind].
  - split; [|split].
    + split; [intros _; eexists; reflexivity | intros _; exact Hfit].
    + split; [intro H; now elim H | discriminate].
    + discriminate.
  - split; [|split].
    + split; [intro H; now elim Hout | intros [wav H]; discriminate].
    + split; [reflexivity | intros _; exact Hout].
    + intros e H. now injection H.
Qed.

(** X3: for any sample rate, channel count and sample width that fit, the
    container is a 44-byte header followed by the payload, and the header
    reads back as the values passed. *)
Theorem create_wav_header_any_format
  (payload : bytes) (sample_rate num_channels sample_width : Z) :
  header_fits (len payload) sample_rate num_channels sample_width ->
  exists header,
    create_wav_header payload sample_rate num_channels sample_width
    = Ok (header ++ payload)
    /\ List.length header = 44%nat
    /\ parse_header header =
         {| riff_tag := b_lit "RIFF";
            riff_size := len payload + 36;
            wave_fmt_tag := b_lit "WAVEfmt ";
            fmt_size := 16;
            format_tag := WAVE_FORMAT_PCM;
            channel_count := num_channels;
            rate := sample_rate;
            byte_rate := sample_rate * num_channels * sample_width;
            block_align := num_channels * sample_width;
            bits_per_sample := sample_width * 8;
            data_tag := b_lit "data";
            data_size := len payload |}.
Proof.
  intros (H1 & H2 & H3 & H4 & H5 & H6 & H7 & H8).
  destruct (wav_header_fields (len payload) sample_rate num_channels
              sample_width H1 H2 H3 H4 H5 H6 H7 H8)
    as (header & Hhdr & Hsize & Hfields).
  exists header. split; [|split; assumption].
  unfold create_wav_header. now rewrite Hhdr.
Qed.

Lemma create_wav_header_any_format_witness :
  exists header,
    create_wav_header (b_lit "abcdefgh") 44100 2 2
    = Ok (header ++ b_lit "abcdefgh")
    /\ List.length header = 44%nat
    /\ parse_header header =
         {| riff_tag := b_lit "RIFF";
            riff_size := 44;
            wave_fmt_tag := b_lit "WAVEfmt ";
            fmt_size := 16;
            format_tag := 1;
            channel_count := 2;
            rate := 44100;
            byte_rate := 176400;
            block_align := 4;
            bits_per_sample := 16;
            data_tag := b_lit "data";
            data_size := 8 |}.
Proof.
  apply (create_wav_header_any_format (b_lit "abcdefgh") 44100 2 2).
  unfold header_fits. vm_compute. intuition discriminate.
Defined.

Lemma slice_in_prefix (off n : nat) (a b : bytes) :
  (off + n <= List.length a)%nat -> slice off n (a ++ b) = slice off n a.
Proof.
  intro H. unfold slice.
  rewrite skipn_app, firstn_app, length_skipn.
  replace (n - (List.length a - off))%nat with 0%nat by lia.
  rewrite firstn_O. apply app_nil_r.
Qed.

(** X4: a container that [create_wav_header] returned can be taken apart
    again: it is 44 bytes longer than the payload, the payload is what
    follows the first 44 bytes, and the data-size field at offset 40
    holds the payload's length. *)
Theorem create_wav_header_payload_recovered
  (payload wav : bytes) (sample_rate num_channels sample_width : Z) :
  create_wav_header payload sample_rate num_channels sample_width = Ok wav ->
  List.length wav = (44 + List.length payload)%nat
  /\ skipn 44 wav = payload
  /\ from_le (slice 40 4 wav) = len payload
  /\ from_le (slice 4 4 wav) = Z.of_nat (List.length wav) - 8.
Proof.
  intro Hwav. unfold create_wav_header in Hwav.
  destruct (wav_header_cases (len payload) sample_rate num_channels sample_width)
    as [[(H1 & H2 & H3 & H4 & H5 & H6 & H7 & H8) _] | [_ Hout]];
    [|rewrite Hout in Hwav; discriminate].
  destruct (wav_header_fields (len payload) sample_rate num_channels
              sample_width H1 H2 H3 H4 H5 H6 H7 H8)
    as (header & Hhdr & Hsize & Hfields).
  rewrite Hhdr in Hwav. cbn [rbind] in Hwav. injection Hwav as <-.
  assert (Hdata : data_size (parse_header header) = len payload)
    by now rewrite Hfields.
  assert (Hriff : riff_size (parse_header header) = len payload + 36)
    by now rewrite Hfields.
  cbn [parse_header data_size riff_size] in Hdata, Hriff.
  repeat split.
  - rewrite length_app. lia.
  - rewrite skipn_app, <- Hsize, skipn_all, Nat.sub_diag. reflexivity.
  - rewrite slice_in_prefix by lia. exact Hdata.
  - rewrite slice_in_prefix by lia. rewrite Hriff, length_app.
    unfold len. lia.
Qed.

Lemma create_wav_header_payload_recovered_witness :
  List.length (scenario_header ++ scenario_audio)
  = (44 + List.length scenario_audio)%nat
  /\ skipn 44 (scenario_header ++ scenario_audio) = scenario_audio
  /\ from_le (slice 40 4 (scenario_header ++ scenario_audio))
     = len scenario_audio
  /\ from_le (slice 4 4 (scenario_header ++ scenario_audio))
     = Z.of_nat (List.length (scenario_header ++ scenario_audio)) - 8.
Proof.
  apply (create_wav_header_payload_recovered scenario_audio
           (scenario_header ++ scenario_audio)
           SAMPLE_RATE CHANNELS SAMPLE_WIDTH).
  reflexivity.
Defined.

(** ** [bytes.split] *)

Lemma split_from_skip (sep s after piece : bytes) :
  split_from sep (List.length s) piece (s ++ after)
  = split_from sep 0 piece after.
Proof.
  induction s as [|b s IH]; [reflexivity|]. exact IH.
Qed.

Lemma split_from_not_nil (sep : bytes) (data : bytes) :
  forall (skip : nat) (piece : bytes), split_from sep skip piece data <> [].
Proof.
  induction data as [|b data IH]; intros skip piece; cbn [split_from].
  - discriminate.
  - destruct skip; [|apply IH].
    destruct (starts_with sep (b :: data)); [discriminate | apply IH].
Qed.

Lemma bytes_join_cons (sep piece : bytes) (rest : list bytes) :
  rest <> [] ->
  bytes_join sep (piece :: rest) = piece ++ sep ++ bytes_join sep rest.
Proof. destruct rest; [congruence | reflexivity]. Qed.

(** A separator matched at the head of the data: the piece is closed and
    the split goes on behind the separator. *)
Lemma split_from_match (sep after piece : bytes) :
  sep <> [] ->
  split_from sep 0 piece (sep ++ after)
  = piece :: split_from sep 0 [] after.
Proof.
  intro Hsep. destruct sep as [|a sep]; [congruence|].
  cbn [app split_from].
  assert (Hs : starts_with (a :: sep) (a :: sep ++ after) = true)
    by (apply starts_with_iff; now exists after).
  rewrite Hs.
  replace (List.length (a :: sep) - 1)%nat with (List.length sep)
    by (simpl; lia).
  now rewrite split_from_skip.
Qed.

Lemma split_from_join (sep : bytes) :
  sep <> [] ->
  forall (n : nat) (data piece : bytes),
    (List.length data <= n)%nat ->
    bytes_join sep (split_from sep 0 piece data) = piece ++ data.
Proof.
  intros Hsep n. induction n as [|n IH]; intros data piece Hlen.
  - destruct data; [|simpl in Hlen; lia]. simpl. now rewrite app_nil_r.
  - destruct data as [|b data]; [simpl; now rewrite app_nil_r|].
    destruct (starts_with sep (b :: data)) eqn:Hs.
    + apply starts_with_iff in Hs as [after Hdata]. rewrite Hdata.
      rewrite (split_from_match sep after piece Hsep).
      rewrite bytes_join_cons by apply split_from_not_nil.
      rewrite IH; [reflexivity|].
      apply (f_equal (@List.length _)) in Hdata.
      rewrite length_app in Hdata. simpl in Hdata, Hlen.
      destruct sep; [congruence | simpl in Hdata; lia].
    + cbn [split_from]. rewrite Hs.
      rewrite IH by (simpl in Hlen; lia).
      now rewrite <- app_assoc.
Qed.

(** X5: joining the pieces of [data.split(sep)] with [sep] gives [data]
    back, for every non-empty separator. *)
Theorem bytes_split_join (sep data : bytes) :
  sep <> [] -> bytes_join sep (bytes_split sep data) = data.
Proof.
  intro Hsep. unfold bytes_split.
  now rewrite (split_from_join sep Hsep (List.length data) data []).
Qed.

Lemma bytes_split_join_witness :
  bytes_join END_RECORDING_SIGNAL
    (bytes_split END_RECORDING_SIGNAL
       (b_lit "abEND_RECORDING_SIGNALcdEND_RECORDING_SIGNAL"))
  = b_lit "abEND_RECORDING_SIGNALcdEND_RECORDING_SIGNAL".
Proof.
  apply (bytes_split_join END_RECORDING_SIGNAL
           (b_lit "abEND_RECORDING_SIGNALcdEND_RECORDING_SIGNAL")).
  vm_compute. discriminate.
Defined.

Lemma split_from_absent (sep data : bytes) :
  bytes_in sep data = false ->
  forall piece, split_from sep 0 piece data = [piece ++ data].
Proof.
  induction data as [|b data IH]; intros Hin piece.
  - simpl. now rewrite app_nil_r.
  - cbn [bytes_in] in Hin. apply orb_false_iff in Hin as [Hs Hin].
    cbn [split_from]. rewrite Hs, (IH Hin), <- app_assoc. reflexivity.
Qed.

Lemma split_from_present (sep data : bytes) :
  sep <> [] ->
  bytes_in sep data = true ->
  forall piece, (2 <= List.length (split_from sep 0 piece data))%nat.
Proof.
  intro Hsep. induction data as [|b data IH]; intros Hin piece.
  - simpl in Hin. rewrite orb_false_r in Hin.
    destruct sep; [congruence | discriminate].
  - cbn [bytes_in] in Hin. cbn [split_from].
    destruct (starts_with sep (b :: data)).
    + cbn [List.length].
      pose proof (split_from_not_nil sep data (List.length sep - 1) []) as Hne.
      destruct (split_from sep (List.length sep - 1) [] data);
        [congruence | simpl; lia].
    + apply IH. exact Hin.
Qed.

(** X6: for a non-empty separator, [sep in data] is false exactly when
    [data.split(sep)] is the single piece [data]; when it is true the
    split has at least two pieces. *)
Theorem bytes_split_single_piece (sep data : bytes) :
  sep <> [] ->
  (bytes_in sep data = false <-> bytes_split sep data = [data])
  /\ (bytes_in sep data = true
      <-> (2 <= List.length (bytes_split sep data))%nat).
Proof.
  intro Hsep. unfold bytes_split.
  destruct (bytes_in sep data) eqn:Hin.
  - pose proof (split_from_present sep data Hsep Hin []) as Hlen.
    split; split; try discriminate; try (intros _; exact Hlen).
    + intro H. rewrite H in Hlen. simpl in Hlen. lia.
    + reflexivity.
  - pose proof (split_from_absent sep data Hin []) as Hone.
    split; split; try discriminate; try reflexivity.
    + intros _. exact Hone.
    + intro H. rewrite Hone in H. simpl in H. lia.
Qed.

Lemma bytes_split_single_piece_witness :
  (bytes_in END_RECORDING_SIGNAL (b_lit "END_RECORDING_SIGNA") = false
   <-> bytes_split END_RECORDING_SIGNAL (b_lit "END_RECORDING_SIGNA")
       = [b_lit "END_RECORDING_SIGNA"])
  /\ (bytes_in END_RECORDING_SIGNAL (b_lit "END_RECORDING_SIGNA") = true
      <-> (2 <= List.length
                  (bytes_split END_RECORDING_SIGNAL
                     (b_lit "END_RECORDING_SIGNA")))%nat).
Proof.
  apply (bytes_split_single_piece END_RECORDING_SIGNAL
           (b_lit "END_RECORDING_SIGNA")).
  vm_compute. discriminate.
Defined.

(** The part of a chunk before the leftmost marker holds no marker. *)
Lemma leftmost_cut_is_clean (sep before after : bytes) :
  sep <> [] ->
  (forall before' after',
     before ++ sep ++ after = before' ++ sep ++ after' ->
     (List.length before <= List.length before')%nat) ->
  bytes_in sep before = false.
Proof.
  intros Hsep Hmin. destruct (bytes_in sep before) eqn:Hin; [|reflexivity].
  apply bytes_in_iff in Hin as (b1 & a1 & ->).
  specialize (Hmin b1 (a1 ++ sep ++ after)).
  rewrite <- !app_assoc in Hmin. specialize (Hmin eq_refl).
  rewrite !length_app in Hmin.
  destruct sep; [congruence | simpl in Hmin; lia].
Qed.

(** ** One turn of the receive loop *)

(** X7: whatever chunk [recv] gives, empty, with or without the marker,
    the turn appends [data.split(END_RECORDING_SIGNAL)[0]] to the buffer:
    a prefix of the chunk that holds no marker.  It leaves the loop
    exactly when the chunk is empty or contains the marker. *)
Theorem receive_step_appends_first_piece (audio_buffer data : bytes) :
  fst (receive_step audio_buffer (RecvData data))
  = audio_buffer ++ hd [] (bytes_split END_RECORDING_SIGNAL data)
  /\ bytes_in END_RECORDING_SIGNAL
       (hd [] (bytes_split END_RECORDING_SIGNAL data)) = false
  /\ (exists dropped,
        data = hd [] (bytes_split END_RECORDING_SIGNAL data) ++ dropped)
  /\ (snd (receive_step audio_buffer (RecvData data)) = None
      <-> keeps_receiving (RecvData data) = true).
Proof.
  assert (Hsep : END_RECORDING_SIGNAL <> []) by discriminate.
  unfold receive_step, keeps_receiving, bytes_split.
  destruct (bytes_in END_RECORDING_SIGNAL data) eqn:Hin.
  - destruct (split_from_head _ _ [] Hin)
      as (before & after & Hdata & Hhd & Hmin).
    rewrite (marker_chunk_not_empty _ Hin), Hhd. cbn [fst snd app negb andb].
    repeat split; try discriminate.
    + subst data. now apply (leftmost_cut_is_clean _ _ after Hsep).
    + now exists (END_RECORDING_SIGNAL ++ after).
  - rewrite (split_from_absent _ _ Hin []). cbn [hd app].
    destruct data as [|b data]; cbn [is_empty fst snd negb andb].
    + rewrite app_nil_r. repeat split; try discriminate.
      now exists [].
    + repeat split; try assumption.
      exists []. now rewrite app_nil_r.
Qed.

(** ** The receive loop as a whole *)

Lemma keeps_receiving_audio (r : recv_result) :
  keeps_receiving r = true <-> exists data, r = RecvData data /\ audio_chunk data.
Proof.
  unfold keeps_receiving, audio_chunk. split.
  - destruct r as [data|]; [|discriminate].
    rewrite andb_true_iff, !negb_true_iff. intro H. now exists data.
  - intros (data & -> & Hne & Hfree). now rewrite Hne, Hfree.
Qed.

(** X8: every script splits into the plain audio chunks it starts with and
    the rest.  The loop appends those chunks, consumes the first outcome
    of the rest and reads nothing after it; that outcome gives the cause
    of the stop: a script used up or an empty read is a disconnection, a
    raised [socket.error] a socket error, any other chunk a marker. *)
Theorem receive_loop_stops_at_first_terminator
  (audio_buffer : bytes) (script : list recv_result) :
  exists chunks tail,
    script = List.map RecvData chunks ++ tail
    /\ Forall audio_chunk chunks
    /\ match tail with
       | [] => True
       | r :: _ => keeps_receiving r = false
       end
    /\ receive_loop audio_buffer script
       = receive_loop (audio_buffer ++ List.concat chunks) tail
    /\ snd (receive_loop audio_buffer script) = tl tail
    /\ snd (fst (receive_loop audio_buffer script))
       = match tail with
         | [] => ByDisconnect
         | RecvError :: _ => BySocketError
         | RecvData data :: _ =>
             if is_empty data then ByDisconnect else ByMarker
         end.
Proof.
  revert audio_buffer. induction script as [|r rest IH]; intro audio_buffer.
  - exists [], []. cbn. rewrite app_nil_r. now repeat split.
  - destruct (keeps_receiving r) eqn:Hkeep.
    + apply keeps_receiving_audio in Hkeep as (data & -> & Hdata).
      destruct (IH (audio_buffer ++ data))
        as (chunks & tail & -> & Hchunks & Htail & Hloop & Hrest & Hstop).
      exists (data :: chunks), tail.
      cbn [List.map app receive_loop List.concat].
      rewrite (receive_step_audio _ _ Hdata), app_assoc.
      repeat split; try assumption. now constructor.
    + exists [], (r :: rest). cbn [List.map app List.concat tl].
      rewrite app_nil_r. repeat split; try assumption; try constructor.
      * cbn [receive_loop]. destruct r as [data|]; [|reflexivity].
        unfold receive_step. destruct (is_empty data) eqn:He; [reflexivity|].
        destruct (bytes_in END_RECORDING_SIGNAL data) eqn:Hin; [reflexivity|].
        unfold keeps_receiving in Hkeep. rewrite He, Hin in Hkeep.
        discriminate.
      * cbn [receive_loop]. destruct r as [data|]; [|reflexivity].
        unfold receive_step. destruct (is_empty data) eqn:He; [reflexivity|].
        destruct (bytes_in END_RECORDING_SIGNAL data) eqn:Hin; [reflexivity|].
        unfold keeps_receiving in Hkeep. rewrite He, Hin in Hkeep.
        discriminate.
Qed.

(** X9: the recording never holds a byte the client did not send, nor
    bytes out of order: the loop leaves the buffer it started with in
    place and appends a prefix of the bytes delivered by the [recv] calls
    it consumed.  Bytes are left out only when the loop stops on a
    marker. *)
Theorem recording_is_prefix_of_received
  (audio_buffer : bytes) (script : list recv_result) :
  exists consumed recorded dropped,
    script = consumed ++ snd (receive_loop audio_buffer script)
    /\ fst (fst (receive_loop audio_buffer script)) = audio_buffer ++ recorded
    /\ received_bytes consumed = recorded ++ dropped
    /\ (snd (fst (receive_loop audio_buffer script)) <> ByMarker ->
        dropped = []).
Proof.
  revert audio_buffer. induction script as [|r rest IH]; intro audio_buffer.
  - exists [], [], []. cbn. rewrite app_nil_r. now repeat split.
  - cbn [receive_loop]. destruct r as [data|].
    + unfold receive_step. destruct (is_empty data) eqn:He.
      * destruct data; [|discriminate].
        exists [RecvData []], [], []. cbn. rewrite app_nil_r.
        now repeat split.
      * destruct (bytes_in END_RECORDING_SIGNAL data) eqn:Hin.
        -- destruct (split_from_head _ _ [] Hin)
             as (before & after & Hdata & Hhd & _).
           unfold bytes_split. rewrite Hhd.
           exists [RecvData data], before, (END_RECORDING_SIGNAL ++ after).
           cbn [fst snd app received_bytes]. rewrite app_nil_r.
           repeat split; [exact Hdata | congruence].
        -- destruct (IH (audio_buffer ++ data))
             as (consumed & recorded & dropped & Hscript & Hbuf & Hbytes & Hdrop).
           exists (RecvData data :: consumed), (data ++ recorded), dropped.
           cbn [app received_bytes].
           rewrite Hbuf, Hbytes, <- !app_assoc.
           repeat split; try assumption. now f_equal.
    + exists [RecvError], [], []. cbn. rewrite app_nil_r. now repeat split.
Qed.

(** ** Blank response text *)

Lemma lstrip_nil_iff (t : text) : lstrip t = [] <-> blank t = true.
Proof.
  unfold blank. induction t as [|c t IH]; [now split|].
  cbn [lstrip forallb]. destruct (isspace c); cbn [andb].
  - exact IH.
  - split; discriminate.
Qed.

Lemma lstrip_head (t s : text) (c : N) :
  lstrip t = c :: s -> isspace c = false.
Proof.
  induction t as [|c' t IH]; [discriminate|].
  cbn [lstrip]. destruct (isspace c') eqn:Hc; [exact IH|].
  intro H. injection H as -> _. exact Hc.
Qed.

(** [t.strip()] is empty exactly when [t] is white space only. *)
Lemma strip_nil_iff (t : text) : strip t = [] <-> blank t = true.
Proof.
  unfold strip. split.
  - intro H. apply (f_equal (@rev _)) in H.
    rewrite rev_involutive in H. cbn [rev] in H.
    apply lstrip_nil_iff in H. apply lstrip_nil_iff.
    destruct (lstrip t) as [|c s] eqn:Hl; [reflexivity|].
    apply lstrip_head in Hl.
    unfold blank in H. rewrite forallb_forall in H.
    specialize (H c). rewrite <- in_rev in H.
    rewrite H in Hl by now left. discriminate.
  - intro H. apply lstrip_nil_iff in H. now rewrite H.
Qed.



(** ** Failures while answering *)

(** X11: when the synthesis call itself raises (the text it was given was
    not blank and was printed), the session has made the transcription
    call and that one synthesis call, has written nothing, and ends
    normally with the connection closed. *)
Theorem synthesis_call_failure_ends_session
  (p : peer) (wav : bytes) (t : text) (e : exn) :
  received_audio p <> [] ->
  create_wav_header (received_audio p) SAMPLE_RATE CHANNELS SAMPLE_WIDTH
  = Ok wav ->
  gemini p wav = Ok t ->
  blank t = false ->
  printable t = true ->
  elevenlabs p t = Raise e ->
  serve_connection p = (Ok tt, [Transcribe wav; Synthesize t; Close]).
Proof.
  intros Haudio Hwav Hreply Hblank Hprint Hfail.
  apply is_empty_false in Haudio.
  assert (Hvis : is_empty (strip t) = false).
  { apply is_empty_false. intro H. apply strip_nil_iff in H. congruence. }
  unfold serve_connection.
  rewrite (process_conversation_printed p _ wav t fresh
             Haudio Hwav Hreply Hvis Hprint).
  unfold try_except, bind, convert, bind, emit, lift. rewrite Hfail.
  reflexivity.
Qed.

Lemma synthesis_call_failure_ends_session_witness :
  exists wav,
    create_wav_header (b_lit "ab") SAMPLE_RATE CHANNELS SAMPLE_WIDTH = Ok wav
    /\ serve_connection unvoiced_peer
       = (Ok tt, [Transcribe wav; Synthesize (str_lit "hello"); Close]).
Proof.
  eexists. split; [reflexivity|].
  apply (synthesis_call_failure_ends_session unvoiced_peer _
           (str_lit "hello") ApiError).
  - vm_compute. discriminate.
  - reflexivity.
  - reflexivity.
  - reflexivity.
  - reflexivity.
  - reflexivity.
Defined.

(** When the socket refuses a write, the loop has sent the chunks before
    it, records the failed write and raises; nothing after it is sent. *)
Lemma relay_write_failure (p : peer) (k : nat) (audio : audio_stream) :
  send_limit p = Some k ->
  forall st : conn_state,
    (sends st <= k)%nat ->
    (k - sends st < List.length (nonempty_chunks (chunks_of audio)))%nat ->
    relay p audio st
    = (Raise OSError,
       {| sends := k;
          trace := trace st
                   ++ List.map SendAll
                        (firstn (k - sends st)
                           (nonempty_chunks (chunks_of audio)))
                   ++ [SendFailed
                         (nth (k - sends st)
                            (nonempty_chunks (chunks_of audio)) [])] |}).
Proof.
  intro Hlimit. induction audio as [| |chunk rest IH]; intros st Hle Hroom.
  - simpl in Hroom. lia.
  - simpl in Hroom. lia.
  - cbn [chunks_of] in Hroom. cbn [relay chunks_of]. unfold bind at 1.
    destruct chunk as [|b chunk].
    + cbn [is_empty ret nonempty_chunks filter negb] in *.
      fold (nonempty_chunks (chunks_of rest)) in *.
      now apply IH.
    + cbn [is_empty nonempty_chunks filter negb] in *.
      fold (nonempty_chunks (chunks_of rest)) in *.
      unfold conn_sendall. rewrite Hlimit.
      destruct (Nat.leb_spec k (sends st)) as [Hfull | Hfree].
      * replace (k - sends st)%nat with 0%nat by lia.
        replace (sends st) with k by lia. reflexivity.
      * rewrite IH by (cbn [sends List.length] in *; lia).
        cbn [sends trace].
        replace (k - sends st)%nat with (S (k - S (sends st))) by lia.
        cbn [firstn nth List.map app]. rewrite <- app_assoc. reflexivity.
Qed.

(** X12: when the socket stops taking writes in the middle of an answer
    (to a text that was not blank and was printed),
    [generate_and_stream_elevenlabs_audio] has sent the non-empty chunks
    that came before, in order, attempts the next one once, and returns
    normally: no later chunk is written and nothing is retried. *)
Theorem write_failure_stops_relay
  (p : peer) (t : text) (audio : audio_stream) (k : nat) (st : conn_state) :
  blank t = false ->
  printable t = true ->
  elevenlabs p t = Ok audio ->
  send_limit p = Some k ->
  (sends st <= k)%nat ->
  (k - sends st < List.length (nonempty_chunks (chunks_of audio)))%nat ->
  exists st',
    generate_and_stream_elevenlabs_audio p t st = (Ok tt, st')
    /\ trace st'
       = trace st
         ++ Synthesize t
         :: List.map SendAll
              (firstn (k - sends st) (nonempty_chunks (chunks_of audio)))
         ++ [SendFailed
               (nth (k - sends st) (nonempty_chunks (chunks_of audio)) [])]
    /\ bytes_sent (trace st')
       = bytes_sent (trace st)
         ++ List.concat
              (firstn (k - sends st) (nonempty_chunks (chunks_of audio))).
Proof.
  intros Hblank Hprint Hspeech Hlimit Hle Hroom.
  assert (Hvis : is_empty (strip t) = false).
  { apply is_empty_false. intro H. apply strip_nil_iff in H. congruence. }
  rewrite (generate_and_stream_printed p t st Hvis Hprint).
  unfold try_except, bind at 1, convert, bind, emit, lift. rewrite Hspeech.
  rewrite (relay_write_failure p k audio Hlimit) by assumption.
  cbn [ret sends trace].
  eexists. split; [reflexivity|]. cbn [trace]. split.
  - now rewrite <- app_assoc.
  - rewrite !bytes_sent_app, bytes_sent_writes. simpl.
    now rewrite !app_nil_r.
Qed.

Lemma write_failure_stops_relay_witness :
  exists st',
    generate_and_stream_elevenlabs_audio hung_up_peer (str_lit "hello") fresh
    = (Ok tt, st')
    /\ trace st'
       = trace fresh
         ++ Synthesize (str_lit "hello")
         :: List.map SendAll
              (firstn (1 - sends fresh)
                 (nonempty_chunks
                    (chunks_of
                       (stream_of [b_lit "AA"; []; b_lit "BB"; b_lit "CC"]
                          StreamEnd))))
         ++ [SendFailed
               (nth (1 - sends fresh)
                  (nonempty_chunks
                     (chunks_of
                        (stream_of [b_lit "AA"; []; b_lit "BB"; b_lit "CC"]
                           StreamEnd))) [])]
    /\ bytes_sent (trace st')
       = bytes_sent (trace fresh)
         ++ List.concat
              (firstn (1 - sends fresh)
                 (nonempty_chunks
                    (chunks_of
                       (stream_of [b_lit "AA"; []; b_lit "BB"; b_lit "CC"]
                          StreamEnd)))).
Proof.
  apply (write_failure_stops_relay hung_up_peer (str_lit "hello")
           (stream_of [b_lit "AA"; []; b_lit "BB"; b_lit "CC"] StreamEnd)
           1%nat fresh).
  - reflexivity.
  - reflexivity.
  - reflexivity.
  - reflexivity.
  - vm_compute. lia.
  - vm_compute. lia.
Defined.

(** X13: whatever the stream and the socket do, what the relay loop adds
    to the trace is one completed write for each of the first non-empty
    chunks of the stream, each written whole, in order, never an empty
    one; followed, when the socket refuses a write, by that one failed
    write of the next non-empty chunk, and by nothing else.  So the bytes
    put on the socket are a prefix of the stream's bytes, and when the
    loop ends normally no chunk is left unsent. *)
Theorem relay_sends_a_prefix (p : peer) (audio : audio_stream) (st : conn_state) :
  exists r st' written pending,
    relay p audio st = (r, st')
    /\ written ++ pending = nonempty_chunks (chunks_of audio)
    /\ ((pending = [] /\ trace st' = trace st ++ List.map SendAll written)
        \/ (exists chunk rest,
              pending = chunk :: rest
              /\ r = Raise OSError
              /\ trace st'
                 = trace st ++ List.map SendAll written ++ [SendFailed chunk]))
    /\ bytes_sent (trace st') = bytes_sent (trace st) ++ List.concat written
    /\ List.concat written ++ List.concat pending
       = List.concat (chunks_of audio)
    /\ Forall (fun chunk => chunk <> []) written
    /\ (r = Ok tt -> pending = []).
Proof.
  revert st. induction audio as [| |chunk rest IH]; intro st.
  - exists (Ok tt), st, [], []. simpl. rewrite !app_nil_r.
    repeat split; try apply Forall_nil. now left.
  - exists (Raise ApiError), st, [], []. simpl. rewrite !app_nil_r.
    repeat split; try apply Forall_nil; try discriminate. now left.
  - cbn [relay chunks_of]. unfold bind at 1.
    destruct chunk as [|b chunk].
    + cbn [is_empty ret]. exact (IH st).
    + cbn [is_empty nonempty_chunks filter negb List.concat].
      fold (nonempty_chunks (chunks_of rest)).
      assert (Hstep : forall s1,
                sends s1 = S (sends st) ->
                trace s1 = trace st ++ [SendAll (b :: chunk)] ->
                exists r st' written pending,
                  relay p rest s1 = (r, st')
                  /\ written ++ pending
                     = (b :: chunk) :: nonempty_chunks (chunks_of rest)
                  /\ ((pending = []
                       /\ trace st' = trace st ++ List.map SendAll written)
                      \/ (exists c' rest',
                            pending = c' :: rest'
                            /\ r = Raise OSError
                            /\ trace st'
                               = trace st ++ List.map SendAll written
                                 ++ [SendFailed c']))
                  /\ bytes_sent (trace st')
                     = bytes_sent (trace st) ++ List.concat written
                  /\ List.concat written ++ List.concat pending
                     = (b :: chunk) ++ List.concat (chunks_of rest)
                  /\ Forall (fun c => c <> []) written
                  /\ (r = Ok tt -> pending = [])).
      { intros s1 _ Hs1.
        destruct (IH s1)
          as (r & st' & written & pending & Hrun & Hcut & Htr & Hsent & Hall
              & Hne & Hdone).
        exists r, st', ((b :: chunk) :: written), pending.
        rewrite Hs1 in Htr, Hsent. rewrite bytes_sent_app in Hsent.
        cbn [bytes_sent] in Hsent. rewrite app_nil_r in Hsent.
        cbn [List.map List.concat app].
        repeat split.
        - exact Hrun.
        - f_equal. exact Hcut.
        - destruct Htr as [[Hp Htr] | (c' & rest' & Hp & Hr & Htr)].
          + left. split; [exact Hp|]. now rewrite Htr, <- app_assoc.
          + right. exists c', rest'. repeat split; try assumption.
            now rewrite Htr, <- app_assoc.
        - now rewrite Hsent, <- !app_assoc.
        - now rewrite <- Hall, <- !app_assoc.
        - constructor; [discriminate | exact Hne].
        - exact Hdone. }
      unfold conn_sendall.
      destruct (send_limit p) as [k|]; [destruct (k <=? sends st)%nat|].
      * eexists (Raise OSError), _, [],
          ((b :: chunk) :: nonempty_chunks (chunks_of rest)).
        split; [reflexivity|].
        cbn [trace app List.concat List.map]. rewrite bytes_sent_app. simpl.
        rewrite !app_nil_r, concat_nonempty_chunks.
        repeat split; try apply Forall_nil; try discriminate.
        right. now exists (b :: chunk), (nonempty_chunks (chunks_of rest)).
      * now apply Hstep.
      * now apply Hstep.
Qed.

(** ** The shape of every session *)


(** X15: a session in which nothing fails.  The recording is not empty,
    its container can be built, transcription returns a text that is not
    blank and that standard output can print, the synthesis stream yields
    [chunks] and ends, and the socket takes the writes.  Then the session submits the container, then the
    text, writes the non-empty chunks in order and closes; the client has
    received exactly the concatenation of [chunks]. *)
Theorem successful_session
  (p : peer) (wav : bytes) (t : text) (chunks : list bytes) :
  received_audio p <> [] ->
  create_wav_header (received_audio p) SAMPLE_RATE CHANNELS SAMPLE_WIDTH
  = Ok wav ->
  gemini p wav = Ok t ->
  blank t = false ->
  printable t = true ->
  elevenlabs p t = Ok (stream_of chunks StreamEnd) ->
  writes_accepted p fresh (List.length (nonempty_chunks chunks)) ->
  serve_connection p
  = (Ok tt,
     Transcribe wav :: Synthesize t
     :: List.map SendAll (nonempty_chunks chunks) ++ [Close])
  /\ bytes_sent (snd (serve_connection p)) = List.concat chunks.
Proof.
  intros Haudio Hwav Hreply Hblank Hprint Hspeech Hw.
  apply is_empty_false in Haudio.
  assert (Hvis : is_empty (strip t) = false).
  { apply is_empty_false. intro H. apply strip_nil_iff in H. congruence. }
  assert (Hrun : serve_connection p
                 = (Ok tt,
                    Transcribe wav :: Synthesize t
                    :: List.map SendAll (nonempty_chunks chunks) ++ [Close])).
  { unfold serve_connection.
    rewrite (process_conversation_printed p _ wav t fresh
               Haudio Hwav Hreply Hvis Hprint).
    unfold try_except, bind at 1, convert, bind, emit, lift. rewrite Hspeech.
    rewrite relay_chunks by exact Hw.
    cbn [relay ret after_writes trace fresh app]. reflexivity. }
  split; [exact Hrun|].
  rewrite Hrun. cbn [snd bytes_sent].
  now rewrite bytes_sent_app, bytes_sent_writes, concat_nonempty_chunks,
    app_nil_r.
Qed.

Lemma successful_session_witness :
  exists wav,
    create_wav_header (b_lit "ab") SAMPLE_RATE CHANNELS SAMPLE_WIDTH = Ok wav
    /\ serve_connection
         (scenario_peer [RecvData (b_lit "ab"); RecvData END_RECORDING_SIGNAL])
       = (Ok tt,
          Transcribe wav :: Synthesize (str_lit "hello")
          :: List.map SendAll (nonempty_chunks [b_lit "AA"; b_lit "BB"])
          ++ [Close])
    /\ bytes_sent
         (snd (serve_connection
            (scenario_peer
               [RecvData (b_lit "ab"); RecvData END_RECORDING_SIGNAL])))
       = List.concat [b_lit "AA"; b_lit "BB"].
Proof.
  eexists. split; [reflexivity|].
  apply (successful_session
           (scenario_peer
              [RecvData (b_lit "ab"); RecvData END_RECORDING_SIGNAL])
           _ (str_lit "hello") [b_lit "AA"; b_lit "BB"]).
  - vm_compute. discriminate.
  - reflexivity.
  - reflexivity.
  - reflexivity.
  - reflexivity.
  - reflexivity.
  - exact I.
Defined.

(** ** A response text that cannot be printed *)



(** ** A recording too long for a container *)

(** X16: when the recording is so long that its container cannot be built
    (length plus 36 at least 2^32), [process_conversation] catches the
    [OverflowError]: it calls no collaborator, writes nothing and returns
    normally. *)
Theorem oversized_recording_is_dropped
  (p : peer) (audio : bytes) (st : conn_state) :
  2 ^ 32 <= len audio + 36 ->
  process_conversation p audio st = (Ok tt, st).
Proof.
  intro Hbig. unfold process_conversation.
  destruct audio as [|b audio]; [reflexivity|]. cbn [is_empty].
  unfold try_except, bind, lift.
  now rewrite (create_wav_header_overflow _ _ _ _ Hbig).
Qed.

Lemma oversized_recording_is_dropped_witness :
  process_conversation scenario_peer_of_nothing oversized_payload fresh
  = (Ok tt, fresh).
Proof.
  apply (oversized_recording_is_dropped
           scenario_peer_of_nothing oversized_payload fresh).
  unfold len, oversized_payload.
  rewrite repeat_length, Z2Nat.id; lia.
Defined.

(** ** What a session depends on *)

Lemma relay_same_socket (p q : peer) (audio : audio_stream) :
  send_limit p = send_limit q ->
  forall st, relay p audio st = relay q audio st.
Proof.
  intro Hlimit. induction audio as [| |chunk rest IH]; intro st;
    try reflexivity.
  cbn [relay]. unfold bind, conn_sendall. rewrite Hlimit.
  destruct (is_empty chunk); cbn [ret]; [apply IH|].
  destruct (send_limit q) as [k|]; [destruct (k <=? sends st)%nat|];
    try reflexivity; apply IH.
Qed.

Lemma process_conversation_same (p q : peer) (audio : bytes) :
  send_limit p = send_limit q ->
  (forall wav, gemini p wav = gemini q wav) ->
  (forall t, elevenlabs p t = elevenlabs q t) ->
  forall st, process_conversation p audio st = process_conversation q audio st.
Proof.
  intros Hlimit Hreply Hspeech st.
  unfold process_conversation, generate_and_stream_elevenlabs_audio,
    try_except, bind, lift, generate_content, convert, print_text, bind,
    emit, lift.
  destruct (is_empty audio); [reflexivity|].
  destruct (create_wav_header audio SAMPLE_RATE CHANNELS SAMPLE_WIDTH)
    as [wav|e]; [|reflexivity].
  rewrite Hreply. destruct (gemini q wav) as [t|e]; [|reflexivity].
  destruct (printable t); [|reflexivity]. cbn [ret].
  destruct (is_empty (strip t)); [reflexivity|].
  rewrite Hspeech. destruct (elevenlabs q t) as [stream|e]; [|reflexivity].
  now rewrite (relay_same_socket p q stream Hlimit).
Qed.

(** X17: a session depends on the bytes received only through the
    recording.  Two clients whose collaborators and sockets behave alike
    and whose receive loops end with the same recording, however their
    bytes were cut into chunks and however the recording ended, get the
    same session: same calls, same writes. *)
Theorem session_depends_on_recording_only (p q : peer) :
  received_audio p = received_audio q ->
  send_limit p = send_limit q ->
  (forall wav, gemini p wav = gemini q wav) ->
  (forall t, elevenlabs p t = elevenlabs q t) ->
  serve_connection p = serve_connection q.
Proof.
  intros Haudio Hlimit Hreply Hspeech.
  unfold serve_connection. rewrite Haudio.
  now rewrite (process_conversation_same p q _ Hlimit Hreply Hspeech).
Qed.

Lemma session_depends_on_recording_only_witness :
  serve_connection
    (scenario_peer [RecvData (b_lit "a"); RecvData (b_lit "bc"); RecvError])
  = serve_connection
      (scenario_peer [RecvData (b_lit "abcEND_RECORDING_SIGNALxyz")]).
Proof.
  apply (session_depends_on_recording_only
           (scenario_peer
              [RecvData (b_lit "a"); RecvData (b_lit "bc"); RecvError])
           (scenario_peer [RecvData (b_lit "abcEND_RECORDING_SIGNALxyz")])).
  - reflexivity.
  - reflexivity.
  - intro wav. reflexivity.
  - intro t. reflexivity.
Defined.

(** ** The accept loop *)

